(** * Euclidean distortion by semidefinite programming: [sdp.py]

    A shallow embedding of [optimize_sdp] (sdp.py, lines 11-56) and of the
    parts of numpy and cvxpy it calls, followed by the properties of the
    distance-matrix builder, of the formulated program and of the result
    extraction.

    Numbers are real numbers ([R]); Python integers are [Z].  The distance
    oracle and the solver backend are arguments of the model, and every
    call made to either of them is recorded in an explicit [World].

    The last part embeds the in-place sorts of [sorting_algorithms.py]
    ([quicksort_lomuto], [partition_hoare], [quicksort_hoare]) on lists of
    integers and proves that they sort. *)

From Stdlib Require Import ZArith List Bool Reals Lra Lia Permutation Sorted.
Import ListNotations.

Local Open Scope Z_scope.

(** ** Exceptions and results *)

Inductive exn : Type :=
| ValueError_negative_dimensions          (* numpy.zeros with a negative size *)
| ValueError_invalid_dimensions (shape : list Z)
                                          (* cvxpy: a negative dimension *)
| ValueError_not_square (shape : list Z)  (* cvxpy: PSD attribute, non-square *)
| IndexError (i j : Z)                    (* subscript out of bounds *)
| TypeError_sqrt_of_None.                 (* numpy.sqrt applied to None *)

Inductive Res (A : Type) : Type :=
| Ok (a : A)
| Raise (e : exn).

Arguments Ok {A} a.
Arguments Raise {A} e.

Definition res_bind {A B} (r : Res A) (k : A -> Res B) : Res B :=
  match r with
  | Ok a => k a
  | Raise e => Raise e
  end.

(** ** Python built-ins *)

(** [range(a, b)]; [range(n)] is [range 0 n].  Empty when [b <= a]. *)
Definition range (a b : Z) : list Z :=
  map (fun k => a + Z.of_nat k) (seq 0 (Z.to_nat (b - a))).

(** A subscript [i] into a sequence of length [len]: negative subscripts
    count from the end, anything else out of bounds is an error. *)
Definition norm_index (len : nat) (i : Z) : option nat :=
  if (0 <=? i) && (i <? Z.of_nat len) then Some (Z.to_nat i)
  else if (- Z.of_nat len <=? i) && (i <? 0) then Some (Z.to_nat (i + Z.of_nat len))
  else None.

(** ** numpy *)

Module np.

Definition ndarray := list (list R).

Definition nrows (m : ndarray) : nat := length m.
Definition ncols (m : ndarray) : nat :=
  match m with
  | [] => 0%nat
  | r :: _ => length r
  end.

(** [np.zeros((r, c))]. *)
Definition zeros (r c : Z) : Res ndarray :=
  if (r <? 0) || (c <? 0) then Raise ValueError_negative_dimensions
  else Ok (repeat (repeat 0%R (Z.to_nat c)) (Z.to_nat r)).

Fixpoint update {A} (k : nat) (v : A) (l : list A) : list A :=
  match l, k with
  | [], _ => []
  | _ :: l', O => v :: l'
  | x :: l', S k' => x :: update k' v l'
  end.

(** [m[i, j]]. *)
Definition getitem (m : ndarray) (i j : Z) : Res R :=
  match norm_index (nrows m) i, norm_index (ncols m) j with
  | Some a, Some b => Ok (nth b (nth a m []) 0%R)
  | _, _ => Raise (IndexError i j)
  end.

(** [m[i, j] = v]. *)
Definition setitem (m : ndarray) (i j : Z) (v : R) : Res ndarray :=
  match norm_index (nrows m) i, norm_index (ncols m) j with
  | Some a, Some b => Ok (update a (update b v (nth a m [])) m)
  | _, _ => Raise (IndexError i j)
  end.

(** The entry at a subscript known to be in bounds. *)
Definition entry (m : ndarray) (i j : Z) : R :=
  nth (Z.to_nat j) (nth (Z.to_nat i) m []) 0%R.

Definition has_shape (m : ndarray) (r c : Z) : Prop :=
  Z.of_nat (length m) = r /\ Forall (fun row => Z.of_nat (length row) = c) m.

(** A float64 scalar as numpy hands it back: a number or not-a-number. *)
Inductive float64 : Type :=
| Finite (x : R)
| NaN.

(** [np.sqrt] of the [value] of a scalar variable: [None] has no [sqrt],
    a negative number gives [nan] (with a warning, not an exception). *)
Definition sqrt (v : option R) : Res float64 :=
  match v with
  | None => Raise TypeError_sqrt_of_None
  | Some x => Ok (if Rlt_dec x 0 then NaN else Finite (R_sqrt.sqrt x))
  end.

End np.

(** ** cvxpy *)

Module cp.

(** The three variables the program declares, by the name they are bound to. *)
Inductive var_id : Type := id_delta | id_G | id_D2.

Record variable : Type := mkVariable {
  var_name : var_id;
  var_shape : list Z;      (* [] for a scalar, [r; c] for a matrix *)
  var_PSD : bool
}.

Definition is_square (shape : list Z) : bool :=
  match shape with
  | [r; c] => r =? c
  | _ => false
  end.

(** [cp.Variable(shape, PSD=psd)].  The constructor of a cvxpy leaf rejects
    a shape with a negative dimension ("Invalid dimensions ..."), and a PSD
    attribute on a shape that is not a square matrix.  A dimension 0 is
    accepted: [(0, 0)] is the shape of an empty matrix. *)
Definition new_Variable (name : var_id) (shape : list Z) (psd : bool)
  : Res variable :=
  if negb (forallb (fun d => 0 <=? d) shape)
  then Raise (ValueError_invalid_dimensions shape)
  else if psd && negb (is_square shape)
  then Raise (ValueError_not_square shape)
  else Ok (mkVariable name shape psd).

Definition rows (v : variable) : Z := nth 0 (var_shape v) 1.
Definition cols (v : variable) : Z := nth 1 (var_shape v) 1.

(** Scalar affine expressions, as far as the program builds them. *)
Inductive Expr : Type :=
| Const (c : R)
| Var (v : variable)                 (* a scalar variable *)
| Index (v : variable) (i j : Z)     (* [v[i, j]] *)
| Add (a b : Expr)
| Sub (a b : Expr)
| Mul (a b : Expr).

(** [v[i, j]] on a matrix variable; the subscripts are checked against the
    shape when the expression is built. *)
Definition getitem (v : variable) (i j : Z) : Res Expr :=
  match norm_index (Z.to_nat (rows v)) i, norm_index (Z.to_nat (cols v)) j with
  | Some a, Some b => Ok (Index v (Z.of_nat a) (Z.of_nat b))
  | _, _ => Raise (IndexError i j)
  end.

Inductive Constraint : Type :=
| PSD_ge0 (v : variable)             (* [v >> 0] *)
| Ge (a b : Expr)                    (* [a >= b] *)
| Equal (a b : Expr)                 (* [a == b] *)
| MatLe (m : np.ndarray) (v : variable).
                                     (* [m <= v], entry by entry *)

Inductive Objective : Type :=
| Minimize (e : Expr).

Record Problem : Type := mkProblem {
  objective : Objective;
  constraints : list Constraint
}.

(** *** The variables a problem mentions *)

Fixpoint expr_vars (e : Expr) : list variable :=
  match e with
  | Const _ => []
  | Var v => [v]
  | Index v _ _ => [v]
  | Add a b | Sub a b | Mul a b => expr_vars a ++ expr_vars b
  end.

Definition constraint_vars (c : Constraint) : list variable :=
  match c with
  | PSD_ge0 v => [v]
  | Ge a b | Equal a b => expr_vars a ++ expr_vars b
  | MatLe _ v => [v]
  end.

Definition variables (p : Problem) : list variable :=
  (match objective p with Minimize e => expr_vars e end)
  ++ flat_map constraint_vars (constraints p).

(** *** Meaning of a problem: its feasible points *)

(** A point gives every variable a value at every subscript; a scalar
    variable is read at [(0, 0)]. *)
Definition Assignment : Type := var_id -> Z -> Z -> R.

Fixpoint eval (rho : Assignment) (e : Expr) : R :=
  match e with
  | Const c => c
  | Var v => rho (var_name v) 0 0
  | Index v i j => rho (var_name v) i j
  | Add a b => (eval rho a + eval rho b)%R
  | Sub a b => (eval rho a - eval rho b)%R
  | Mul a b => (eval rho a * eval rho b)%R
  end.

Definition rsum (l : list Z) (f : Z -> R) : R :=
  fold_right (fun k acc => (f k + acc)%R) 0%R l.

(** [x^T A x] for an [m x m] matrix. *)
Definition quad_form (m : Z) (A : Z -> Z -> R) (x : Z -> R) : R :=
  rsum (range 0 m) (fun i => rsum (range 0 m) (fun j => (x i * A i j * x j)%R)).

Definition is_PSD (m : Z) (A : Z -> Z -> R) : Prop :=
  forall x : Z -> R, (0 <= quad_form m A x)%R.

Definition is_symmetric (m : Z) (A : Z -> Z -> R) : Prop :=
  forall i j, 0 <= i < m -> 0 <= j < m -> A i j = A j i.

(** A variable declared [PSD=True] ranges over symmetric positive
    semidefinite matrices. *)
Definition attributes_hold (rho : Assignment) (v : variable) : Prop :=
  var_PSD v = true ->
  is_symmetric (rows v) (rho (var_name v)) /\ is_PSD (rows v) (rho (var_name v)).

Definition holds (rho : Assignment) (c : Constraint) : Prop :=
  match c with
  | PSD_ge0 v => is_PSD (rows v) (rho (var_name v))
  | Ge a b => (eval rho b <= eval rho a)%R
  | Equal a b => eval rho a = eval rho b
  | MatLe m v =>
      forall i j, 0 <= i < rows v -> 0 <= j < cols v ->
                  (np.entry m i j <= rho (var_name v) i j)%R
  end.

Definition feasible (rho : Assignment) (p : Problem) : Prop :=
  Forall (attributes_hold rho) (variables p) /\
  Forall (holds rho) (constraints p).

(** *** What a solve leaves behind *)

Inductive Status : Type :=
| optimal | infeasible | unbounded
| optimal_inaccurate | infeasible_inaccurate | unbounded_inaccurate
| user_limit | solver_error.

(** [prob.status] and the [value] of each variable after [prob.solve()];
    a value is [None] unless the solve produced a solution. *)
Record Outcome : Type := mkOutcome {
  status : Status;
  value_D2 : option R;
  value_G : option np.ndarray;
  value_delta : option np.ndarray
}.

(** A solver backend: the external capability behind [Problem.solve]. *)
Definition Backend : Type := Problem -> Outcome.

Definition has_solution (s : Status) : bool :=
  match s with
  | optimal | optimal_inaccurate => true
  | _ => false
  end.

(** cvxpy's convention on values: all set when a solution was found, all
    [None] otherwise. *)
Definition values_convention (o : Outcome) : Prop :=
  if has_solution (status o)
  then value_D2 o <> None /\ value_G o <> None /\ value_delta o <> None
  else value_D2 o = None /\ value_G o = None /\ value_delta o = None.

(** [verbose] of [Problem.solve] when the caller does not pass it. *)
Definition solve_default_verbose : bool := false.

End cp.

(** ** Effects: the calls made to the oracle and to the solver *)

Record World : Type := mkWorld {
  oracle_calls : list (Z * Z);               (* [(i, j)] of each call, in order *)
  solver_calls : list (cp.Problem * bool)    (* problem and [verbose] of each solve *)
}.

(** A computation may raise, and it may add calls to the world. *)
Definition M (A : Type) : Type := World -> Res A * World.

Definition ret {A} (a : A) : M A := fun w => (Ok a, w).

Definition bind {A B} (c : M A) (k : A -> M B) : M B :=
  fun w =>
    match c w with
    | (Ok a, w') => k a w'
    | (Raise e, w') => (Raise e, w')
    end.

Definition lift {A} (r : Res A) : M A := fun w => (r, w).

Declare Scope prog_scope.
Delimit Scope prog_scope with prog.
Notation "x <- c ;; k" := (bind c (fun x => k))
  (at level 61, c at next level, right associativity) : prog_scope.
Notation "x <~ c ;; k" := (res_bind c (fun x => k))
  (at level 61, c at next level, right associativity) : prog_scope.
Local Open Scope prog_scope.

(** A [for] loop whose body updates one local, in either monad. *)
Fixpoint for_ {A S} (l : list A) (body : A -> S -> M S) (s : S) : M S :=
  match l with
  | [] => ret s
  | x :: l' => s' <- body x s ;; for_ l' body s'
  end.

Fixpoint for_res {A S} (l : list A) (body : A -> S -> Res S) (s : S) : Res S :=
  match l with
  | [] => Ok s
  | x :: l' => s' <~ body x s ;; for_res l' body s'
  end.

(** The distance oracle [dist_func(i, j, dist_arg)]. *)
Definition Oracle (Arg : Type) : Type := Z -> Z -> Arg -> R.

Definition call_oracle {Arg} (dist_func : Oracle Arg) (i j : Z) (a : Arg) : M R :=
  fun w => (Ok (dist_func i j a),
            mkWorld (oracle_calls w ++ [(i, j)]) (solver_calls w)).

(** [prob.solve(verbose=...)]. *)
Definition Problem_solve (backend : cp.Backend) (prob : cp.Problem)
  (verbose : bool) : M cp.Outcome :=
  fun w => (Ok (backend prob),
            mkWorld (oracle_calls w) (solver_calls w ++ [(prob, verbose)])).

(** Values of the returned list. *)
Inductive pyval : Type :=
| PyNone
| PyStatus (s : cp.Status)
| PyFloat (x : np.float64)
| PyArray (m : np.ndarray).

Definition py_value (v : option np.ndarray) : pyval :=
  match v with
  | Some m => PyArray m
  | None => PyNone
  end.

(** ** The program *)

(** sdp.py, line 25: [dist_matrix_sq[i,j] = dist_func(i,j,dist_arg)**2]. *)
Definition store_square {Arg} (dist_func : Oracle Arg) (dist_arg : Arg)
  (i j : Z) (dist_matrix_sq : np.ndarray) : M np.ndarray :=
  d <- call_oracle dist_func i j dist_arg ;;
  lift (np.setitem dist_matrix_sq i j (d ^ 2)%R).

(** sdp.py, lines 22-25: the squared distance matrix. *)
Definition build_dist_matrix_sq {Arg} (n : Z) (dist_func : Oracle Arg)
  (dist_arg : Arg) : M np.ndarray :=
  dist_matrix_sq <- lift (np.zeros n n) ;;
  for_ (range 0 n) (fun i dist_matrix_sq =>
    for_ (range 0 n) (store_square dist_func dist_arg i) dist_matrix_sq)
  dist_matrix_sq.

(** sdp.py, lines 39-42: the body of the inner loop over the constraints. *)
Definition add_pair_constraints (dist_matrix_sq : np.ndarray)
  (delta G D2 : cp.variable) (i j : Z) (constraints : list cp.Constraint)
  : Res (list cp.Constraint) :=
  sq_ij <~ np.getitem dist_matrix_sq i j ;;
  delta_ij <~ cp.getitem delta i j ;;
  G_ij <~ cp.getitem G (i - 1) (j - 1) ;;
  delta_0i <~ cp.getitem delta 0 i ;;
  delta_0j <~ cp.getitem delta 0 j ;;
  delta_ij' <~ cp.getitem delta i j ;;
  Ok (constraints ++
      [cp.Ge (cp.Mul (cp.Var D2) (cp.Const sq_ij)) delta_ij;
       cp.Equal G_ij
         (cp.Mul (cp.Const (1 / 2)%R)
                 (cp.Sub (cp.Add delta_0i delta_0j) delta_ij'))]).

(** sdp.py, lines 28-47: variables, constraints, objective, problem. *)
Definition formulate (n : Z) (dist_matrix_sq : np.ndarray) : Res cp.Problem :=
  delta <~ cp.new_Variable cp.id_delta [n; n] false ;;
  G <~ cp.new_Variable cp.id_G [n - 1; n - 1] true ;;
  D2 <~ cp.new_Variable cp.id_D2 [] false ;;
  let constraints :=
    [cp.PSD_ge0 G;
     cp.Ge (cp.Var D2) (cp.Const 0%R);
     cp.MatLe dist_matrix_sq delta] in
  constraints <~
    for_res (range 1 n) (fun i constraints =>
      for_res (range 1 n) (fun j constraints =>
        add_pair_constraints dist_matrix_sq delta G D2 i j constraints)
      constraints)
    constraints ;;
  let objective := cp.Minimize (cp.Var D2) in
  Ok (cp.mkProblem objective constraints).

(** sdp.py, lines 11-56.  Line 48 is [prob.solve()]: no keyword is passed,
    so the solve runs with cvxpy's default for [verbose]. *)
Definition optimize_sdp {Arg} (backend : cp.Backend) (n : Z)
  (dist_func : Oracle Arg) (dist_arg : Arg) (verbose : bool)
  : M (list pyval) :=
  dist_matrix_sq <- build_dist_matrix_sq n dist_func dist_arg ;;
  prob <- lift (formulate n dist_matrix_sq) ;;
  out <- Problem_solve backend prob cp.solve_default_verbose ;;
  let status := cp.status out in
  D <- lift (np.sqrt (cp.value_D2 out)) ;;
  let G := py_value (cp.value_G out) in
  let delta := py_value (cp.value_delta out) in
  ret [PyStatus status; PyFloat D; G; delta].

(** ** Closed forms the program is compared with *)

(** The matrix of squared oracle values, row by row. *)
Definition squared_distances {Arg} (n : Z) (dist_func : Oracle Arg)
  (dist_arg : Arg) : np.ndarray :=
  map (fun i => map (fun j => (dist_func i j dist_arg ^ 2)%R) (range 0 n))
      (range 0 n).

(** One squared oracle value, at subscripts given as naturals. *)
Definition square_at {Arg} (dist_func : Oracle Arg) (dist_arg : Arg)
  (i j : nat) : R :=
  (dist_func (Z.of_nat i) (Z.of_nat j) dist_arg ^ 2)%R.

(** Every ordered pair of [[0, n) x [0, n)], row by row. *)
Definition all_pairs (n : Z) : list (Z * Z) :=
  flat_map (fun i => map (fun j => (i, j)) (range 0 n)) (range 0 n).

(** The variables as lines 28-30 declare them. *)
Definition var_delta (n : Z) : cp.variable :=
  cp.mkVariable cp.id_delta [n; n] false.
Definition var_G (n : Z) : cp.variable :=
  cp.mkVariable cp.id_G [n - 1; n - 1] true.
Definition var_D2 : cp.variable :=
  cp.mkVariable cp.id_D2 [] false.

(** [D2 * squared_distance[i,j] >= delta[i,j]]. *)
Definition stretch_constraint (sq : np.ndarray) (n i j : Z) : cp.Constraint :=
  cp.Ge (cp.Mul (cp.Var var_D2) (cp.Const (np.entry sq i j)))
        (cp.Index (var_delta n) i j).

(** [G[i-1,j-1] == 1/2 * (delta[0,i] + delta[0,j] - delta[i,j])]. *)
Definition gram_constraint (n i j : Z) : cp.Constraint :=
  cp.Equal (cp.Index (var_G n) (i - 1) (j - 1))
           (cp.Mul (cp.Const (1 / 2)%R)
                   (cp.Sub (cp.Add (cp.Index (var_delta n) 0 i)
                                   (cp.Index (var_delta n) 0 j))
                           (cp.Index (var_delta n) i j))).

Definition base_constraints (sq : np.ndarray) (n : Z) : list cp.Constraint :=
  [cp.PSD_ge0 (var_G n);
   cp.Ge (cp.Var var_D2) (cp.Const 0%R);
   cp.MatLe sq (var_delta n)].

Definition pair_constraints (sq : np.ndarray) (n : Z) : list cp.Constraint :=
  flat_map (fun i =>
    flat_map (fun j => [stretch_constraint sq n i j; gram_constraint n i j])
             (range 1 n))
    (range 1 n).

(** The feasible set in the words of the formulation. *)
Definition satisfies_formulation (n : Z) (sq : np.ndarray)
  (rho : cp.Assignment) : Prop :=
  cp.is_PSD (n - 1) (rho cp.id_G) /\
  (0 <= rho cp.id_D2 0%Z 0%Z)%R /\
  (forall i j, 0 <= i < n -> 0 <= j < n ->
     (np.entry sq i j <= rho cp.id_delta i j)%R) /\
  (forall i j, 1 <= i < n -> 1 <= j < n ->
     (rho cp.id_D2 0%Z 0%Z * np.entry sq i j >= rho cp.id_delta i j)%R) /\
  (forall i j, 1 <= i < n -> 1 <= j < n ->
     rho cp.id_G (i - 1) (j - 1)
     = (1 / 2 * (rho cp.id_delta 0%Z i + rho cp.id_delta 0%Z j
                 - rho cp.id_delta i j))%R).

(** The problem of lines 28-47 in closed form. *)
Definition formulated_problem (n : Z) (sq : np.ndarray) : cp.Problem :=
  cp.mkProblem (cp.Minimize (cp.Var var_D2))
               (base_constraints sq n ++ pair_constraints sq n).

(** A point changed at one entry of [delta]. *)
Definition with_delta (rho : cp.Assignment) (i0 j0 : Z) (v : R)
  : cp.Assignment :=
  fun x i j =>
    match x with
    | cp.id_delta => if (i =? i0) && (j =? j0) then v else rho x i j
    | _ => rho x i j
    end.

(** ** Concrete inputs used below *)

Definition empty_world : World := mkWorld [] [].

(** Distance 1 between distinct points, 0 on the diagonal. *)
Definition unit_dist : Oracle unit :=
  fun i j _ => if i =? j then 0%R else 1%R.

(** An oracle that is not symmetric: [dist(2,1) = 1], all else 0. *)
Definition asym_dist : Oracle unit :=
  fun i j _ => if (i =? 2) && (j =? 1) then 1%R else 0%R.

(** The constant oracles 1 and -1. *)
Definition plus_one : Oracle unit := fun _ _ _ => 1%R.
Definition minus_one : Oracle unit := fun _ _ _ => (-1)%R.

(** A backend that reports every problem infeasible. *)
Definition reports_infeasible : cp.Backend :=
  fun _ => cp.mkOutcome cp.infeasible None None None.

(** A backend that reports optimality with the given value of [D2]. *)
Definition reports_optimal (d2 : R) : cp.Backend :=
  fun _ => cp.mkOutcome cp.optimal (Some d2)
             (Some [[1%R]]) (Some [[0%R; 1%R]; [1%R; 0%R]]).


(** A point for two vertices at distance 1:
    [delta = [[0,1],[1,0]]], [G = [[1]]], [D2 = 1]. *)
Definition two_points : cp.Assignment :=
  fun x i j =>
    match x with
    | cp.id_delta => if i =? j then 0%R else 1%R
    | cp.id_G => 1%R
    | cp.id_D2 => 1%R
    end.

(** ** Points of the feasible set used in the further properties *)

(** A point with every slack from vertex 0 raised by [t], and [G] with it. *)
Definition shift_vertex_0 (rho : cp.Assignment) (t : R) : cp.Assignment :=
  fun x i j =>
    match x with
    | cp.id_delta =>
        if (i =? 0) && (1 <=? j) then (rho x i j + t)%R else rho x i j
    | cp.id_G => (rho x i j + t)%R
    | cp.id_D2 => rho x i j
    end.

(** The regular simplex of squared side [M]: [delta] is [M] off the
    diagonal of vertices [1 .. n-1] and 0 on it, [G] is [M/2 (I + J)]. *)
Definition simplex_point (M d2 : R) : cp.Assignment :=
  fun x i j =>
    match x with
    | cp.id_delta => if (1 <=? i) && (i =? j) then 0%R else M
    | cp.id_G => if i =? j then M else (M / 2)%R
    | cp.id_D2 => d2
    end.

(** For two vertices: [delta] is the squared distance matrix itself,
    [G = [[delta[0,1]]]] and [D2 = 0]. *)
Definition degenerate_point (sq : np.ndarray) : cp.Assignment :=
  fun x i j =>
    match x with
    | cp.id_delta => np.entry sq i j
    | cp.id_G => np.entry sq 0 1
    | cp.id_D2 => 0%R
    end.

(** The point a solve hands back through the values of the variables. *)
Definition point_of_values (d2 : R) (g dl : np.ndarray) : cp.Assignment :=
  fun x i j =>
    match x with
    | cp.id_delta => np.entry dl i j
    | cp.id_G => np.entry g i j
    | cp.id_D2 => d2
    end.

(** An oracle for three vertices at pairwise distance 1, and the values of
    the isometric solution of its problem. *)
Definition triangle_delta : np.ndarray :=
  [[0%R; 1%R; 1%R]; [1%R; 0%R; 1%R]; [1%R; 1%R; 0%R]].
Definition triangle_G : np.ndarray :=
  [[1%R; (1 / 2)%R]; [(1 / 2)%R; 1%R]].
Definition reports_triangle : cp.Backend :=
  fun _ => cp.mkOutcome cp.optimal (Some 1%R)
             (Some triangle_G) (Some triangle_delta).

(** ** Sorting: [sorting_algorithms.py]

    Lists of integers, sorted in place; the model passes the list along.
    A recursive call costs one unit of [fuel]. *)

Module sorting.

Inductive list_exn : Type :=
| ListIndexError (i : Z)              (* list index out of range *)
| TypeError_None_compared.            (* [None > low_idx] *)

Inductive outcome (A : Type) : Type :=
| Done (a : A)
| Fail (e : list_exn)
| OutOfFuel.

Arguments Done {A} a.
Arguments Fail {A} e.
Arguments OutOfFuel {A}.

Definition obind {A B} (c : outcome A) (k : A -> outcome B) : outcome B :=
  match c with
  | Done a => k a
  | Fail e => Fail e
  | OutOfFuel => OutOfFuel
  end.

Notation "x <-- c ;; k" := (obind c (fun x => k))
  (at level 61, c at next level, right associativity).

(** [elements[i]]. *)
Definition getitem (elements : list Z) (i : Z) : outcome Z :=
  match norm_index (length elements) i with
  | Some k => Done (nth k elements 0)
  | None => Fail (ListIndexError i)
  end.

(** [elements[i] = v]. *)
Definition setitem (elements : list Z) (i : Z) (v : Z) : outcome (list Z) :=
  match norm_index (length elements) i with
  | Some k => Done (np.update k v elements)
  | None => Fail (ListIndexError i)
  end.

(** [elements[a], elements[b] = elements[b], elements[a]]: both reads,
    then the two writes from left to right. *)
Definition swap (elements : list Z) (a b : Z) : outcome (list Z) :=
  x_b <-- getitem elements b ;;
  x_a <-- getitem elements a ;;
  elements <-- setitem elements a x_b ;;
  setitem elements b x_a.

(** Lines 30-34: the partitioning loop, on the list and [swap_idx]. *)
Fixpoint lomuto_loop (indices : list Z) (pivot_value : Z)
  (elements : list Z) (swap_idx : Z) : outcome (list Z * Z) :=
  match indices with
  | [] => Done (elements, swap_idx)
  | i :: indices' =>
      x <-- getitem elements i ;;
      if x <? pivot_value
      then elements <-- swap elements i swap_idx ;;
           lomuto_loop indices' pivot_value elements (swap_idx + 1)
      else lomuto_loop indices' pivot_value elements swap_idx
  end.

(** Lines 7-47. *)
Fixpoint quicksort_lomuto (fuel : nat) (elements : list Z)
  (low_idx high_idx : option Z) : outcome (list Z) :=
  match fuel with
  | O => OutOfFuel
  | S fuel' =>
      let low_idx :=
        match low_idx with None => 0 | Some l => l end in
      let high_idx :=
        match high_idx with
        | None => Z.of_nat (length elements) - 1
        | Some h => h
        end in
      pivot_value <-- getitem elements high_idx ;;
      st <-- lomuto_loop (range low_idx high_idx) pivot_value elements low_idx ;;
      let (elements, swap_idx) := st in
      elements <-- swap elements high_idx swap_idx ;;
      if (low_idx <? swap_idx - 1) && (swap_idx + 1 <? high_idx) then
        elements <-- quicksort_lomuto fuel' elements
                       (Some low_idx) (Some (swap_idx - 1)) ;;
        quicksort_lomuto fuel' elements (Some (swap_idx + 1)) (Some high_idx)
      else if (low_idx <? swap_idx - 1) && (high_idx <=? swap_idx + 1) then
        quicksort_lomuto fuel' elements (Some low_idx) (Some (swap_idx - 1))
      else if (swap_idx - 1 <=? low_idx) && (swap_idx + 1 <? high_idx) then
        quicksort_lomuto fuel' elements (Some (swap_idx + 1)) (Some high_idx)
      else Done elements
  end.

(** Lines 63-64: [while elements[right_idx] > pivot_value: right_idx -= 1]. *)
Fixpoint scan_right (fuel : nat) (elements : list Z)
  (pivot_value right_idx : Z) : outcome Z :=
  match fuel with
  | O => OutOfFuel
  | S fuel' =>
      x <-- getitem elements right_idx ;;
      if pivot_value <? x
      then scan_right fuel' elements pivot_value (right_idx - 1)
      else Done right_idx
  end.

(** Lines 66-67: [while elements[left_idx] < pivot_value: left_idx += 1]. *)
Fixpoint scan_left (fuel : nat) (elements : list Z)
  (pivot_value left_idx : Z) : outcome Z :=
  match fuel with
  | O => OutOfFuel
  | S fuel' =>
      x <-- getitem elements left_idx ;;
      if x <? pivot_value
      then scan_left fuel' elements pivot_value (left_idx + 1)
      else Done left_idx
  end.

(** Lines 61-70: the outer loop.  The result is the list as the loop left
    it and the value returned: [Some right_idx] from line 69, [None] when
    the loop ends by its condition and the function falls off its end. *)
Fixpoint hoare_while (fuel scan_fuel : nat) (elements : list Z)
  (pivot_value left_idx right_idx : Z) : outcome (list Z * option Z) :=
  match fuel with
  | O => OutOfFuel
  | S fuel' =>
      if left_idx =? right_idx then Done (elements, None)
      else
        right_idx <-- scan_right scan_fuel elements pivot_value
                        (right_idx - 1) ;;
        left_idx <-- scan_left scan_fuel elements pivot_value
                       (left_idx + 1) ;;
        if right_idx <=? left_idx then Done (elements, Some right_idx)
        else
          elements <-- swap elements left_idx right_idx ;;
          hoare_while fuel' scan_fuel elements pivot_value left_idx right_idx
  end.

(** Lines 51-70. *)
Definition partition_hoare (fuel : nat) (elements : list Z)
  (low_idx high_idx : option Z) : outcome (list Z * option Z) :=
  let low_idx :=
    match low_idx with None => 0 | Some l => l end in
  let high_idx :=
    match high_idx with
    | None => Z.of_nat (length elements) - 1
    | Some h => h
    end in
  let left_idx := low_idx - 1 in
  let right_idx := high_idx + 1 in
  pivot_value <-- getitem elements low_idx ;;
  hoare_while fuel fuel elements pivot_value left_idx right_idx.

(** Lines 73-103. *)
Fixpoint quicksort_hoare (fuel : nat) (elements : list Z)
  (low_idx high_idx : option Z) : outcome (list Z) :=
  match fuel with
  | O => OutOfFuel
  | S fuel' =>
      let low_idx :=
        match low_idx with None => 0 | Some l => l end in
      let high_idx :=
        match high_idx with
        | None => Z.of_nat (length elements) - 1
        | Some h => h
        end in
      if low_idx <? high_idx then
        part <-- partition_hoare fuel' elements
                   (Some low_idx) (Some high_idx) ;;
        let (elements, MIDDLE) := part in
        match MIDDLE with
        | None => Fail TypeError_None_compared
        | Some MIDDLE =>
            if (low_idx <? MIDDLE) && (MIDDLE + 1 <? high_idx) then
              elements <-- quicksort_hoare fuel' elements
                             (Some low_idx) (Some MIDDLE) ;;
              quicksort_hoare fuel' elements (Some (MIDDLE + 1)) (Some high_idx)
            else if (low_idx <? MIDDLE) && (high_idx <=? MIDDLE + 1) then
              quicksort_hoare fuel' elements (Some low_idx) (Some MIDDLE)
            else if (MIDDLE <=? low_idx) && (MIDDLE + 1 <? high_idx) then
              quicksort_hoare fuel' elements (Some (MIDDLE + 1)) (Some high_idx)
            else Done elements
        end
      else Done elements
  end.

End sorting.

(** The list with the values at positions [a] and [b] exchanged. *)
Definition exchanged (l : list Z) (a b : nat) : list Z :=
  np.update b (nth a l 0) (np.update a (nth b l 0) l).

(** * Properties *)

(** ** Lists updated by index *)

Lemma range_0 (n : Z) : range 0 n = map Z.of_nat (seq 0 (Z.to_nat n)).
Proof.
  unfold range. rewrite Z.sub_0_r. apply map_ext. intros k. lia.
Qed.

Lemma in_range (a b k : Z) : In k (range a b) <-> a <= k < b.
Proof.
  unfold range. rewrite in_map_iff. split.
  - intros [x [Hx Hin]]. apply in_seq in Hin. lia.
  - intros H. exists (Z.to_nat (k - a)). split; [lia|].
    apply in_seq. lia.
Qed.

Lemma length_range (a b : Z) : length (range a b) = Z.to_nat (b - a).
Proof. unfold range. now rewrite length_map, length_seq. Qed.

Lemma norm_index_nat (len k : nat) :
  (k < len)%nat -> norm_index len (Z.of_nat k) = Some k.
Proof.
  intros H. unfold norm_index.
  replace (0 <=? Z.of_nat k) with true by (symmetry; apply Z.leb_le; lia).
  replace (Z.of_nat k <? Z.of_nat len) with true
    by (symmetry; apply Z.ltb_lt; lia).
  simpl. now rewrite Nat2Z.id.
Qed.

Lemma norm_index_in (len : nat) (i : Z) :
  0 <= i < Z.of_nat len -> norm_index len i = Some (Z.to_nat i).
Proof.
  intros H. rewrite <- (Z2Nat.id i) at 1 by lia.
  apply norm_index_nat. lia.
Qed.

Lemma update_length {A} (k : nat) (v : A) (l : list A) :
  length (np.update k v l) = length l.
Proof.
  revert k. induction l as [|x l IH]; intros [|k]; simpl; auto.
Qed.

Lemma update_app {A} (pre : list A) (x v : A) (rest : list A) :
  np.update (length pre) v (pre ++ x :: rest) = pre ++ v :: rest.
Proof.
  induction pre as [|y pre IH]; simpl; [reflexivity|]. now rewrite IH.
Qed.

Lemma update_update {A} (k : nat) (u v : A) (l : list A) :
  np.update k v (np.update k u l) = np.update k v l.
Proof.
  revert k. induction l as [|x l IH]; intros [|k]; simpl; auto.
  now rewrite IH.
Qed.

Lemma update_nth_same {A} (k : nat) (d : A) (l : list A) :
  np.update k (nth k l d) l = l.
Proof.
  revert k. induction l as [|x l IH]; intros [|k]; simpl; auto.
  now rewrite IH.
Qed.

Lemma nth_update_eq {A} (k : nat) (v d : A) (l : list A) :
  (k < length l)%nat -> nth k (np.update k v l) d = v.
Proof.
  revert k. induction l as [|x l IH]; intros [|k] H; simpl in *;
    try lia; auto.
  apply IH. lia.
Qed.

Lemma Forall_update {A} (P : A -> Prop) (k : nat) (v : A) (l : list A) :
  P v -> Forall P l -> Forall P (np.update k v l).
Proof.
  intros Hv. revert k. induction l as [|x l IH]; intros [|k] H; simpl; auto;
    inversion H; subst; constructor; auto.
Qed.

Lemma ncols_uniform (C : nat) (m : np.ndarray) :
  m <> [] -> Forall (fun r => length r = C) m -> np.ncols m = C.
Proof.
  intros Hne H. destruct m as [|r m]; [congruence|].
  simpl. now inversion H.
Qed.

Lemma flat_map_over_map {A B C} (f : B -> list C) (g : A -> B) (l : list A) :
  flat_map f (map g l) = flat_map (fun x => f (g x)) l.
Proof.
  induction l as [|x l IH]; simpl; [reflexivity|]. now rewrite IH.
Qed.

Lemma world_eta (w : World) :
  mkWorld (oracle_calls w ++ []) (solver_calls w) = w.
Proof. destruct w. simpl. now rewrite app_nil_r. Qed.

(** ** The distance-matrix builder *)

Section Builder.

Context {Arg : Type}.
Variable dist_func : Oracle Arg.
Variable dist_arg : Arg.

Lemma inner_loop (a C : nat) :
  forall rest pre m w,
    (a < length m)%nat ->
    Forall (fun r => length r = C) m ->
    nth a m [] = pre ++ rest ->
    for_ (map Z.of_nat (seq (length pre) (length rest))) (store_square dist_func dist_arg (Z.of_nat a)) m w
    = (Ok (np.update a (pre ++ map (square_at dist_func dist_arg a) (seq (length pre) (length rest))) m),
       mkWorld (oracle_calls w ++
                map (fun j => (Z.of_nat a, Z.of_nat j))
                    (seq (length pre) (length rest)))
               (solver_calls w)).
Proof.
  induction rest as [|x rest IH]; intros pre m w Ha Hm Hrow.
  - simpl. rewrite <- Hrow, update_nth_same, world_eta. reflexivity.
  - assert (HC : length (pre ++ x :: rest) = C).
    { rewrite <- Hrow. rewrite Forall_forall in Hm. apply Hm.
      apply nth_In. exact Ha. }
    assert (Hnc : np.ncols m = C).
    { apply ncols_uniform; [|exact Hm]. destruct m; simpl in *; [lia|congruence]. }
    cbn [length seq map for_]. unfold bind at 1. unfold store_square at 1.
    unfold bind at 1. unfold call_oracle at 1. unfold lift at 1.
    unfold np.setitem. unfold np.nrows. rewrite Hnc.
    rewrite (norm_index_nat _ _ Ha).
    rewrite norm_index_nat
      by (rewrite <- HC, length_app; simpl; lia).
    rewrite Hrow, update_app.
    set (v := (dist_func (Z.of_nat a) (Z.of_nat (length pre)) dist_arg ^ 2)%R).
    set (m' := np.update a (pre ++ v :: rest) m).
    set (w' := mkWorld _ _).
    specialize (IH (pre ++ [v]) m' w').
    rewrite length_app in IH. simpl in IH.
    replace (length pre + 1)%nat with (S (length pre)) in IH by lia.
    rewrite IH.
    + unfold m'. rewrite update_update. subst w'. simpl.
      rewrite <- !app_assoc. simpl. reflexivity.
    + unfold m'. now rewrite update_length.
    + unfold m'. apply Forall_update; [|exact Hm].
      rewrite <- HC, !length_app. reflexivity.
    + unfold m'. rewrite nth_update_eq by exact Ha.
      now rewrite <- app_assoc.
Qed.

Lemma outer_loop (C : nat) :
  forall rest done w,
    Forall (fun r => length r = C) (done ++ rest) ->
    for_ (map Z.of_nat (seq (length done) (length rest)))
         (fun i m => for_ (map Z.of_nat (seq 0 C)) (store_square dist_func dist_arg i) m) (done ++ rest) w
    = (Ok (done ++ map (fun a => map (square_at dist_func dist_arg a) (seq 0 C))
                       (seq (length done) (length rest))),
       mkWorld (oracle_calls w ++
                flat_map (fun a => map (fun j => (Z.of_nat a, Z.of_nat j))
                                       (seq 0 C))
                         (seq (length done) (length rest)))
               (solver_calls w)).
Proof.
  induction rest as [|r rest IH]; intros done w Hm.
  - simpl. rewrite world_eta, !app_nil_r. reflexivity.
  - assert (Hr : length r = C).
    { rewrite Forall_forall in Hm. apply Hm. apply in_elt. }
    cbn [length seq map for_ flat_map]. unfold bind at 1.
    pose proof (inner_loop (length done) C r [] (done ++ r :: rest) w) as Hin.
    simpl in Hin. rewrite Hr in Hin. rewrite Hin; clear Hin.
    + rewrite update_app.
      set (row := map (square_at dist_func dist_arg (length done)) (seq 0 C)).
      set (w' := mkWorld _ _).
      specialize (IH (done ++ [row]) w').
      rewrite length_app in IH. simpl in IH.
      replace (length done + 1)%nat with (S (length done)) in IH by lia.
      rewrite <- app_assoc in IH. simpl in IH. rewrite IH.
      * subst w'. simpl. rewrite <- !app_assoc. reflexivity.
      * apply Forall_app in Hm. destruct Hm as [Hd Hrest].
        apply Forall_app. split; [exact Hd|].
        inversion Hrest; subst. constructor; [|assumption].
        unfold row. now rewrite length_map, length_seq.
    + rewrite length_app. simpl. lia.
    + exact Hm.
    + apply nth_middle.
Qed.

(** The builder in closed form: which matrix it returns, and which calls
    it makes. *)
Lemma build_closed_form (n : Z) (w : World) :
  0 <= n ->
  build_dist_matrix_sq n dist_func dist_arg w
  = (Ok (squared_distances n dist_func dist_arg),
     mkWorld (oracle_calls w ++ all_pairs n) (solver_calls w)).
Proof.
  intros Hn. unfold build_dist_matrix_sq, np.zeros.
  replace (n <? 0) with false by (symmetry; apply Z.ltb_ge; lia).
  simpl orb. cbv iota. unfold bind at 1. unfold lift at 1.
  rewrite range_0.
  pose proof (outer_loop (Z.to_nat n)
                (repeat (repeat 0%R (Z.to_nat n)) (Z.to_nat n)) [] w) as H.
  simpl in H. rewrite repeat_length in H.
  rewrite H; clear H.
  - unfold squared_distances, all_pairs. rewrite range_0.
    rewrite map_map, flat_map_over_map.
    f_equal; [f_equal|f_equal; f_equal].
    + apply map_ext. intros a. unfold square_at. now rewrite map_map.
    + apply flat_map_ext. intros a. now rewrite map_map.
  - apply Forall_forall. intros r Hr. apply repeat_spec in Hr. subst r.
    apply repeat_length.
Qed.

End Builder.

Lemma nth_range (a b : Z) (k : nat) (d : Z) :
  (k < Z.to_nat (b - a))%nat -> nth k (range a b) d = a + Z.of_nat k.
Proof.
  intros H. unfold range.
  rewrite (nth_indep _ d (a + Z.of_nat 0))
    by (now rewrite length_map, length_seq).
  rewrite (map_nth (fun k => a + Z.of_nat k)), seq_nth by exact H.
  reflexivity.
Qed.

Lemma squared_distances_shape {Arg} (n : Z) (f : Oracle Arg) (a : Arg) :
  0 <= n -> np.has_shape (squared_distances n f a) n n.
Proof.
  intros Hn. unfold np.has_shape, squared_distances. split.
  - rewrite length_map, length_range. lia.
  - apply Forall_forall. intros row Hrow. apply in_map_iff in Hrow.
    destruct Hrow as [i [<- _]]. rewrite length_map, length_range. lia.
Qed.

Lemma squared_distances_entry {Arg} (n : Z) (f : Oracle Arg) (a : Arg) (i j : Z) :
  0 <= i < n -> 0 <= j < n ->
  np.entry (squared_distances n f a) i j = (f i j a ^ 2)%R.
Proof.
  intros Hi Hj. unfold np.entry, squared_distances.
  set (row := fun i => map (fun j => (f i j a ^ 2)%R) (range 0 n)).
  rewrite (nth_indep _ [] (row 0))
    by (rewrite length_map, length_range; lia).
  rewrite (map_nth row), (nth_range 0 n) by lia.
  replace (0 + Z.of_nat (Z.to_nat i)) with i by lia.
  unfold row. set (g := fun j => (f i j a ^ 2)%R).
  rewrite (nth_indep _ 0%R (g 0))
    by (rewrite length_map, length_range; lia).
  rewrite (map_nth g), (nth_range 0 n) by lia.
  now replace (0 + Z.of_nat (Z.to_nat j)) with j by lia.
Qed.

Lemma length_flat_map_const {A B} (f : A -> list B) (c : nat) (l : list A) :
  (forall x, length (f x) = c) -> length (flat_map f l) = (length l * c)%nat.
Proof.
  intros H. induction l as [|x l IH]; simpl; [reflexivity|].
  now rewrite length_app, H, IH.
Qed.

Lemma length_all_pairs (n : Z) :
  0 <= n -> Z.of_nat (length (all_pairs n)) = n * n.
Proof.
  intros Hn. unfold all_pairs.
  rewrite (length_flat_map_const _ (Z.to_nat n))
    by (intros; now rewrite length_map, length_range, Z.sub_0_r).
  rewrite length_range, Z.sub_0_r. lia.
Qed.

Lemma in_all_pairs (n i j : Z) :
  In (i, j) (all_pairs n) <-> 0 <= i < n /\ 0 <= j < n.
Proof.
  unfold all_pairs. rewrite in_flat_map. split.
  - intros [x [Hx Hin]]. apply in_map_iff in Hin.
    destruct Hin as [y [Heq Hy]]. inversion Heq; subst.
    apply in_range in Hx. apply in_range in Hy. lia.
  - intros [Hi Hj]. exists i. split; [apply in_range; lia|].
    apply in_map. apply in_range. lia.
Qed.

(** ** The formulator *)

Lemma for_res_append {A C} (l : list A)
  (body : A -> list C -> Res (list C)) (g : A -> list C) :
  (forall x acc, In x l -> body x acc = Ok (acc ++ g x)) ->
  forall acc, for_res l body acc = Ok (acc ++ flat_map g l).
Proof.
  induction l as [|x l IH]; intros Hbody acc; simpl.
  - now rewrite app_nil_r.
  - rewrite Hbody by (now left). simpl.
    rewrite IH by (intros; apply Hbody; now right).
    now rewrite app_assoc.
Qed.

Lemma np_getitem_in (m : np.ndarray) (r c i j : Z) :
  np.has_shape m r c -> 0 <= i < r -> 0 <= j < c ->
  np.getitem m i j = Ok (np.entry m i j).
Proof.
  intros [Hr Hc] Hi Hj. unfold np.getitem, np.entry, np.nrows.
  assert (Hnc : Z.of_nat (np.ncols m) = c).
  { destruct m as [|row m]; simpl in *; [lia|]. now inversion Hc. }
  rewrite !norm_index_in by lia. reflexivity.
Qed.

Lemma cp_getitem_in (x : cp.var_id) (psd : bool) (r c i j : Z) :
  0 <= i < r -> 0 <= j < c ->
  cp.getitem (cp.mkVariable x [r; c] psd) i j
  = Ok (cp.Index (cp.mkVariable x [r; c] psd) i j).
Proof.
  intros Hi Hj. unfold cp.getitem, cp.rows, cp.cols. simpl.
  rewrite !norm_index_in by lia. now rewrite !Z2Nat.id by lia.
Qed.

Lemma add_pair_constraints_in (sq : np.ndarray) (n i j : Z)
  (cs : list cp.Constraint) :
  np.has_shape sq n n -> 1 <= i < n -> 1 <= j < n ->
  add_pair_constraints sq (var_delta n) (var_G n) var_D2 i j cs
  = Ok (cs ++ [stretch_constraint sq n i j; gram_constraint n i j]).
Proof.
  intros Hsq Hi Hj. unfold add_pair_constraints, var_delta, var_G.
  rewrite (np_getitem_in sq n n) by (auto; lia). cbn [res_bind].
  rewrite !cp_getitem_in by lia. cbn [res_bind].
  reflexivity.
Qed.

Lemma new_Variable_matrix (x : cp.var_id) (r : Z) (psd : bool) :
  0 < r -> cp.new_Variable x [r; r] psd = Ok (cp.mkVariable x [r; r] psd).
Proof.
  intros Hr. unfold cp.new_Variable. simpl.
  replace (0 <=? r) with true by (symmetry; apply Z.leb_le; lia).
  rewrite Z.eqb_refl. simpl. now rewrite andb_false_r.
Qed.

(** The problem the formulator builds, in closed form. *)
Lemma formulate_closed_form (n : Z) (sq : np.ndarray) :
  2 <= n -> np.has_shape sq n n ->
  formulate n sq = Ok (formulated_problem n sq).
Proof.
  intros Hn Hsq. unfold formulate.
  rewrite !new_Variable_matrix by lia. simpl.
  fold (var_delta n) (var_G n) var_D2.
  rewrite (for_res_append _ _
             (fun i => flat_map
                (fun j => [stretch_constraint sq n i j; gram_constraint n i j])
                (range 1 n))).
  - reflexivity.
  - intros i acc Hi. apply in_range in Hi.
    apply for_res_append. intros j acc' Hj. apply in_range in Hj.
    now apply add_pair_constraints_in.
Qed.

Lemma in_pair_constraints (sq : np.ndarray) (n : Z) (c : cp.Constraint) :
  In c (pair_constraints sq n) <->
  exists i j, 1 <= i < n /\ 1 <= j < n /\
              (c = stretch_constraint sq n i j \/ c = gram_constraint n i j).
Proof.
  unfold pair_constraints. rewrite in_flat_map. split.
  - intros [i [Hi Hc]]. apply in_flat_map in Hc. destruct Hc as [j [Hj Hc]].
    apply in_range in Hi. apply in_range in Hj.
    exists i, j. simpl in Hc. intuition auto.
  - intros [i [j [Hi [Hj Hc]]]]. exists i. split; [now apply in_range|].
    apply in_flat_map. exists j. split; [now apply in_range|].
    simpl. intuition auto.
Qed.

Lemma length_pair_constraints (sq : np.ndarray) (n : Z) :
  1 <= n ->
  Z.of_nat (length (pair_constraints sq n)) = 2 * (n - 1) * (n - 1).
Proof.
  intros Hn. unfold pair_constraints.
  rewrite (length_flat_map_const _ (Z.to_nat (n - 1) * 2)).
  - rewrite length_range, !Nat2Z.inj_mul, Z2Nat.id by lia.
    change (Z.of_nat 2) with 2. ring.
  - intros i. rewrite (length_flat_map_const _ 2%nat) by reflexivity.
    now rewrite length_range.
Qed.

(** A point satisfies every constraint of the list exactly when it
    satisfies the formulation as the text states it. *)
Lemma constraints_hold_iff (n : Z) (sq : np.ndarray) (rho : cp.Assignment) :
  Forall (cp.holds rho) (base_constraints sq n ++ pair_constraints sq n)
  <-> satisfies_formulation n sq rho.
Proof.
  unfold satisfies_formulation. rewrite Forall_app. split.
  - intros [Hbase Hpair]. unfold base_constraints in Hbase.
    inversion Hbase as [|? ? H1 Hb1]; subst.
    inversion Hb1 as [|? ? H2 Hb2]; subst.
    inversion Hb2 as [|? ? H3 _]; subst.
    rewrite Forall_forall in Hpair. simpl in H1, H2, H3.
    repeat split.
    + exact H1.
    + exact H2.
    + intros i j Hi Hj. apply H3; unfold cp.rows, cp.cols; simpl; lia.
    + intros i j Hi Hj.
      assert (H : cp.holds rho (stretch_constraint sq n i j)).
      { apply Hpair, in_pair_constraints. exists i, j. auto. }
      simpl in H. lra.
    + intros i j Hi Hj.
      assert (H : cp.holds rho (gram_constraint n i j)).
      { apply Hpair, in_pair_constraints. exists i, j. auto. }
      simpl in H. exact H.
  - intros [H1 [H2 [H3 [H4 H5]]]]. split.
    + unfold base_constraints.
      constructor; [exact H1|]. constructor; [exact H2|].
      constructor; [|constructor].
      intros i j Hi Hj. unfold cp.rows, cp.cols in Hi, Hj. simpl in Hi, Hj.
      apply H3; lia.
    + apply Forall_forall. intros c Hc. apply in_pair_constraints in Hc.
      destruct Hc as [i [j [Hi [Hj [-> | ->]]]]]; simpl.
      * specialize (H4 i j Hi Hj). lra.
      * now apply H5.
Qed.

(** ** Feasible points of the formulated problem *)

Lemma in_expr_vars_stretch (sq : np.ndarray) (n i j : Z) (v : cp.variable) :
  In v (cp.constraint_vars (stretch_constraint sq n i j)) ->
  v = var_D2 \/ v = var_delta n.
Proof. simpl. intuition auto. Qed.

Lemma in_expr_vars_gram (n i j : Z) (v : cp.variable) :
  In v (cp.constraint_vars (gram_constraint n i j)) ->
  v = var_G n \/ v = var_delta n.
Proof. simpl. intuition auto. Qed.

Lemma in_variables (n : Z) (sq : np.ndarray) (v : cp.variable) :
  In v (cp.variables (formulated_problem n sq)) ->
  v = var_D2 \/ v = var_delta n \/ v = var_G n.
Proof.
  unfold cp.variables, formulated_problem. simpl.
  intros [H | [H | [H | [H | H]]]]; auto.
  apply in_flat_map in H. destruct H as [c [Hc Hv]].
  apply in_pair_constraints in Hc.
  destruct Hc as [i [j [_ [_ [-> | ->]]]]].
  - apply in_expr_vars_stretch in Hv. intuition auto.
  - apply in_expr_vars_gram in Hv. intuition auto.
Qed.

(** Feasibility of the formulated problem, spelled out. *)
Lemma feasible_iff (n : Z) (sq : np.ndarray) (rho : cp.Assignment) :
  cp.feasible rho (formulated_problem n sq) <->
  cp.is_symmetric (n - 1) (rho cp.id_G) /\ satisfies_formulation n sq rho.
Proof.
  unfold cp.feasible. split.
  - intros [Hattr Hcs]. split.
    + rewrite Forall_forall in Hattr.
      destruct (Hattr (var_G n)) as [Hsym _]; [|reflexivity|exact Hsym].
      unfold cp.variables, formulated_problem. simpl. auto.
    + now apply constraints_hold_iff.
  - intros [Hsym Hsat]. split.
    + apply Forall_forall. intros v Hv. apply in_variables in Hv.
      destruct Hv as [-> | [-> | ->]]; unfold cp.attributes_hold; simpl;
        try discriminate.
      intros _. split; [exact Hsym|]. apply Hsat.
    + now apply constraints_hold_iff.
Qed.

Lemma with_delta_other (rho : cp.Assignment) (i0 j0 i j : Z) (v : R) :
  i <> i0 \/ j <> j0 ->
  with_delta rho i0 j0 v cp.id_delta i j = rho cp.id_delta i j.
Proof.
  intros H. unfold with_delta.
  destruct ((i =? i0) && (j =? j0)) eqn:Hb; [|reflexivity].
  apply andb_prop in Hb. destruct Hb as [Hi Hj].
  apply Z.eqb_eq in Hi. apply Z.eqb_eq in Hj. lia.
Qed.

(** Raising one entry of column 0 of [delta] keeps a point feasible. *)
Lemma with_delta_column_0_feasible (n : Z) (sq : np.ndarray)
  (rho : cp.Assignment) (i0 : Z) (v : R) :
  (rho cp.id_delta i0 0%Z <= v)%R ->
  cp.feasible rho (formulated_problem n sq) ->
  cp.feasible (with_delta rho i0 0 v) (formulated_problem n sq).
Proof.
  intros Hv Hfeas. apply feasible_iff in Hfeas. apply feasible_iff.
  destruct Hfeas as [Hsym [H1 [H2 [H3 [H4 H5]]]]].
  split; [exact Hsym|]. unfold satisfies_formulation.
  split; [exact H1|]. split; [exact H2|]. split; [|split].
  - intros i j Hi Hj. specialize (H3 i j Hi Hj).
    unfold with_delta.
    destruct ((i =? i0) && (j =? 0)) eqn:Hb; [|exact H3].
    apply andb_prop in Hb. destruct Hb as [Hi0 Hj0].
    apply Z.eqb_eq in Hi0. apply Z.eqb_eq in Hj0. subst. lra.
  - intros i j Hi Hj. rewrite with_delta_other by lia.
    now apply H4.
  - intros i j Hi Hj. rewrite !with_delta_other by lia.
    now apply H5.
Qed.

Lemma two_points_feasible :
  cp.feasible two_points
    (formulated_problem 2 (squared_distances 2 unit_dist tt)).
Proof.
  apply feasible_iff. split.
  - intros i j _ _. reflexivity.
  - unfold satisfies_formulation. repeat split.
    + intros x. unfold cp.quad_form, cp.rsum, range. simpl.
      pose proof (Rle_0_sqr (x 0)) as H. unfold Rsqr in H. lra.
    + simpl. lra.
    + intros i j Hi Hj. rewrite squared_distances_entry by lia.
      unfold unit_dist, two_points. destruct (i =? j); simpl; lra.
    + intros i j Hi Hj. rewrite squared_distances_entry by lia.
      assert (i = 1) by lia. assert (j = 1) by lia. subst.
      unfold unit_dist, two_points. simpl. lra.
    + intros i j Hi Hj.
      assert (i = 1) by lia. assert (j = 1) by lia. subst.
      unfold two_points. simpl. lra.
Qed.

Lemma unit_squares_shape :
  np.has_shape (squared_distances 2 unit_dist tt) 2 2.
Proof. apply squared_distances_shape. lia. Qed.

(** C8.  At every feasible point of the problem formulated for [n] and a
    squared distance matrix, [delta[i,j] = delta[j,i]] for all [i, j] in
    [[1, n)]: [G] is declared symmetric and both orderings of [(i, j)] tie
    it to [delta].  Column 0 of [delta] is not tied in this way: some other
    feasible point, obtained by changing [delta[1,0]] alone, has
    [delta[1,0] <> delta[0,1]]. *)
Theorem delta_symmetric_away_from_vertex_0
  (n : Z) (sq : np.ndarray) (p : cp.Problem) (rho : cp.Assignment) :
  2 <= n -> np.has_shape sq n n ->
  formulate n sq = Ok p ->
  cp.feasible rho p ->
  (forall i j, 1 <= i < n -> 1 <= j < n ->
     rho cp.id_delta i j = rho cp.id_delta j i) /\
  (exists v, cp.feasible (with_delta rho 1 0 v) p /\
             with_delta rho 1 0 v cp.id_delta 1 0
             <> with_delta rho 1 0 v cp.id_delta 0 1).
Proof.
  intros Hn Hsq Hp Hfeas.
  rewrite formulate_closed_form in Hp by assumption.
  injection Hp as <-. split.
  - apply feasible_iff in Hfeas.
    destruct Hfeas as [Hsym [_ [_ [_ [_ H5]]]]].
    intros i j Hi Hj.
    pose proof (H5 i j Hi Hj) as Hij. pose proof (H5 j i Hj Hi) as Hji.
    rewrite (Hsym (i - 1) (j - 1)) in Hij by lia. lra.
  - set (a := rho cp.id_delta 1 0). set (b := rho cp.id_delta 0 1).
    exists (Rmax a b + 1)%R. split.
    + apply with_delta_column_0_feasible; [|exact Hfeas].
      pose proof (Rmax_l a b). fold a. lra.
    + rewrite (with_delta_other rho 1 0 0 1) by lia.
      unfold with_delta. simpl.
      pose proof (Rmax_r a b). fold b. lra.
Qed.

Lemma delta_symmetric_away_from_vertex_0_witness :
  cp.feasible two_points
    (formulated_problem 2 (squared_distances 2 unit_dist tt)) /\
  (forall i j, 1 <= i < 2 -> 1 <= j < 2 ->
     two_points cp.id_delta i j = two_points cp.id_delta j i) /\
  (exists v,
     cp.feasible (with_delta two_points 1 0 v)
       (formulated_problem 2 (squared_distances 2 unit_dist tt)) /\
     with_delta two_points 1 0 v cp.id_delta 1 0
     <> with_delta two_points 1 0 v cp.id_delta 0 1).
Proof.
  split; [exact two_points_feasible|].
  apply (delta_symmetric_away_from_vertex_0 2
           (squared_distances 2 unit_dist tt)).
  - lia.
  - exact unit_squares_shape.
  - apply formulate_closed_form; [lia|exact unit_squares_shape].
  - exact two_points_feasible.
Defined.

(** C9.  For an oracle with zero diagonal, every feasible point of the
    formulated problem has [delta[i,i] = 0] for every [i] in [[1, n)]:
    [squared_distance <= delta] gives [delta[i,i] >= 0], and
    [D2 * squared_distance[i,i] >= delta[i,i]] with a zero square gives
    [delta[i,i] <= 0]. *)
Theorem zero_diagonal_forces_delta_diagonal {Arg}
  (n : Z) (dist_func : Oracle Arg) (dist_arg : Arg)
  (p : cp.Problem) (rho : cp.Assignment) :
  (forall i, 0 <= i < n -> dist_func i i dist_arg = 0%R) ->
  formulate n (squared_distances n dist_func dist_arg) = Ok p ->
  cp.feasible rho p ->
  forall i, 1 <= i < n -> rho cp.id_delta i i = 0%R.
Proof.
  intros Hdiag Hp Hfeas i Hi.
  rewrite formulate_closed_form in Hp
    by (try apply squared_distances_shape; lia).
  injection Hp as <-. apply feasible_iff in Hfeas.
  destruct Hfeas as [_ [_ [_ [H3 [H4 _]]]]].
  assert (Hlo := H3 i i ltac:(lia) ltac:(lia)).
  assert (Hhi := H4 i i Hi Hi).
  rewrite squared_distances_entry, Hdiag in Hlo, Hhi by lia.
  simpl in Hlo, Hhi. lra.
Qed.

Lemma zero_diagonal_forces_delta_diagonal_witness :
  (forall i, 0 <= i < 2 -> unit_dist i i tt = 0%R) /\
  forall i, 1 <= i < 2 -> two_points cp.id_delta i i = 0%R.
Proof.
  assert (Hdiag : forall i, 0 <= i < 2 -> unit_dist i i tt = 0%R).
  { intros i _. unfold unit_dist. now rewrite Z.eqb_refl. }
  split; [exact Hdiag|].
  apply (zero_diagonal_forces_delta_diagonal 2 unit_dist tt
           (formulated_problem 2 (squared_distances 2 unit_dist tt))).
  - exact Hdiag.
  - apply formulate_closed_form; [lia|exact unit_squares_shape].
  - exact two_points_feasible.
Defined.

(** ** The claims on the builder and on the formulator *)

(** C2.  For [n >= 1] and any oracle, the builder returns an [n x n] matrix
    whose entry [(i, j)] is [dist_func(i, j, dist_arg)] squared for every
    ordered pair of [[0, n) x [0, n)], the diagonal included, and it calls
    the oracle once for each of these pairs, [n * n] calls in all; it does
    not call the solver. *)
Theorem builder_squares_every_pair {Arg}
  (n : Z) (dist_func : Oracle Arg) (dist_arg : Arg) (w : World) :
  1 <= n ->
  exists m w',
    build_dist_matrix_sq n dist_func dist_arg w = (Ok m, w') /\
    np.has_shape m n n /\
    (forall i j, 0 <= i < n -> 0 <= j < n ->
       np.entry m i j = (dist_func i j dist_arg ^ 2)%R) /\
    oracle_calls w' = oracle_calls w ++ all_pairs n /\
    Z.of_nat (length (all_pairs n)) = n * n /\
    (forall i j, In (i, j) (all_pairs n) <-> 0 <= i < n /\ 0 <= j < n) /\
    solver_calls w' = solver_calls w.
Proof.
  intros Hn.
  exists (squared_distances n dist_func dist_arg).
  exists (mkWorld (oracle_calls w ++ all_pairs n) (solver_calls w)).
  split; [apply build_closed_form; lia|].
  split; [apply squared_distances_shape; lia|].
  split; [intros; now apply squared_distances_entry|].
  split; [reflexivity|].
  split; [apply length_all_pairs; lia|].
  split; [intros; apply in_all_pairs|reflexivity].
Qed.

Lemma builder_squares_every_pair_witness :
  1 <= 2 /\
  exists m w',
    build_dist_matrix_sq 2 unit_dist tt empty_world = (Ok m, w') /\
    np.has_shape m 2 2 /\
    (forall i j, 0 <= i < 2 -> 0 <= j < 2 ->
       np.entry m i j = (unit_dist i j tt ^ 2)%R) /\
    oracle_calls w' = oracle_calls empty_world ++ all_pairs 2 /\
    Z.of_nat (length (all_pairs 2)) = 2 * 2 /\
    (forall i j, In (i, j) (all_pairs 2) <-> 0 <= i < 2 /\ 0 <= j < 2) /\
    solver_calls w' = solver_calls empty_world.
Proof.
  split; [lia|].
  apply (builder_squares_every_pair 2 unit_dist tt empty_world). lia.
Defined.

Lemma squared_distances_ext {Arg} (n : Z) (f g : Oracle Arg) (a : Arg) :
  (forall i j, 0 <= i < n -> 0 <= j < n -> (f i j a ^ 2 = g i j a ^ 2)%R) ->
  squared_distances n f a = squared_distances n g a.
Proof.
  intros H. unfold squared_distances.
  apply map_ext_in. intros i Hi. apply map_ext_in. intros j Hj.
  apply in_range in Hi. apply in_range in Hj. now apply H.
Qed.

Lemma build_ext {Arg} (n : Z) (f g : Oracle Arg) (a : Arg) (w : World) :
  (forall i j, 0 <= i < n -> 0 <= j < n -> (f i j a ^ 2 = g i j a ^ 2)%R) ->
  build_dist_matrix_sq n f a w = build_dist_matrix_sq n g a w.
Proof.
  intros H. destruct (Z.lt_ge_cases n 0) as [Hneg | Hpos].
  - unfold build_dist_matrix_sq, np.zeros.
    replace (n <? 0) with true by (symmetry; apply Z.ltb_lt; lia).
    reflexivity.
  - rewrite !build_closed_form by lia.
    now rewrite (squared_distances_ext n f g a).
Qed.

(** C10.  The program depends on the oracle only through the squares of its
    values: two oracles whose squares agree on [[0, n) x [0, n)] give the
    same squared distance matrix, the same problem and the same run of
    [optimize_sdp] (result, oracle calls and solver call); in particular an
    oracle and its negation, so negative outputs are accepted as they are. *)
Theorem squares_determine_the_problem {Arg}
  (backend : cp.Backend) (n : Z) (f g : Oracle Arg) (dist_arg : Arg)
  (verbose : bool) (w : World) :
  (forall i j, 0 <= i < n -> 0 <= j < n ->
     (f i j dist_arg ^ 2 = g i j dist_arg ^ 2)%R) ->
  build_dist_matrix_sq n f dist_arg w = build_dist_matrix_sq n g dist_arg w /\
  formulate n (squared_distances n f dist_arg)
  = formulate n (squared_distances n g dist_arg) /\
  optimize_sdp backend n f dist_arg verbose w
  = optimize_sdp backend n g dist_arg verbose w /\
  optimize_sdp backend n (fun i j a => (- f i j a)%R) dist_arg verbose w
  = optimize_sdp backend n f dist_arg verbose w.
Proof.
  intros H. split; [now apply build_ext|].
  split; [now rewrite (squared_distances_ext n f g dist_arg)|].
  split.
  - unfold optimize_sdp, bind. now rewrite (build_ext n f g).
  - unfold optimize_sdp, bind.
    rewrite (build_ext n (fun i j a => (- f i j a)%R) f); [reflexivity|].
    intros i j _ _. ring.
Qed.

Lemma squares_determine_the_problem_witness :
  (forall i j, 0 <= i < 2 -> 0 <= j < 2 ->
     (plus_one i j tt ^ 2 = minus_one i j tt ^ 2)%R) /\
  optimize_sdp (reports_optimal 0) 2 plus_one tt false empty_world
  = optimize_sdp (reports_optimal 0) 2 minus_one tt false empty_world.
Proof.
  assert (H : forall i j, 0 <= i < 2 -> 0 <= j < 2 ->
                (plus_one i j tt ^ 2 = minus_one i j tt ^ 2)%R).
  { intros i j _ _. unfold plus_one, minus_one. ring. }
  split; [exact H|].
  apply (squares_determine_the_problem (reports_optimal 0) 2
           plus_one minus_one tt false empty_world H).
Defined.

(** C1.  For [n >= 2] and an [n x n] squared distance matrix the formulator
    succeeds and builds exactly: [G >> 0]; [D2 >= 0];
    [squared_distance <= delta] on [[0, n) x [0, n)]; and for every
    [(i, j)] in [[1, n) x [1, n)] the two constraints
    [D2 * squared_distance[i,j] >= delta[i,j]] and
    [G[i-1,j-1] == 1/2 * (delta[0,i] + delta[0,j] - delta[i,j])]; nothing
    else ([3 + 2 (n-1)^2] constraints); the objective is to minimize [D2].
    A point satisfies the constraint list exactly when it satisfies these
    conditions. *)
Theorem formulate_builds_exactly (n : Z) (sq : np.ndarray) :
  2 <= n -> np.has_shape sq n n ->
  exists p,
    formulate n sq = Ok p /\
    cp.objective p = cp.Minimize (cp.Var var_D2) /\
    (forall c, In c (cp.constraints p) <->
       c = cp.PSD_ge0 (var_G n) \/
       c = cp.Ge (cp.Var var_D2) (cp.Const 0%R) \/
       c = cp.MatLe sq (var_delta n) \/
       exists i j, 1 <= i < n /\ 1 <= j < n /\
         (c = stretch_constraint sq n i j \/ c = gram_constraint n i j)) /\
    Z.of_nat (length (cp.constraints p)) = 3 + 2 * (n - 1) * (n - 1) /\
    (forall rho, Forall (cp.holds rho) (cp.constraints p) <->
                 satisfies_formulation n sq rho).
Proof.
  intros Hn Hsq. exists (formulated_problem n sq).
  split; [now apply formulate_closed_form|].
  split; [reflexivity|]. split; [|split].
  - intros c. unfold formulated_problem. simpl.
    rewrite in_pair_constraints. intuition auto.
  - unfold formulated_problem. cbn [cp.constraints].
    rewrite length_app, Nat2Z.inj_add, length_pair_constraints by lia.
    reflexivity.
  - intros rho. apply constraints_hold_iff.
Qed.

Lemma formulate_builds_exactly_witness :
  2 <= 2 /\ np.has_shape (squared_distances 2 unit_dist tt) 2 2 /\
  exists p,
    formulate 2 (squared_distances 2 unit_dist tt) = Ok p /\
    cp.objective p = cp.Minimize (cp.Var var_D2) /\
    (forall c, In c (cp.constraints p) <->
       c = cp.PSD_ge0 (var_G 2) \/
       c = cp.Ge (cp.Var var_D2) (cp.Const 0%R) \/
       c = cp.MatLe (squared_distances 2 unit_dist tt) (var_delta 2) \/
       exists i j, 1 <= i < 2 /\ 1 <= j < 2 /\
         (c = stretch_constraint (squared_distances 2 unit_dist tt) 2 i j \/
          c = gram_constraint 2 i j)) /\
    Z.of_nat (length (cp.constraints p)) = 3 + 2 * (2 - 1) * (2 - 1) /\
    (forall rho, Forall (cp.holds rho) (cp.constraints p) <->
       satisfies_formulation 2 (squared_distances 2 unit_dist tt) rho).
Proof.
  split; [lia|]. split; [exact unit_squares_shape|].
  apply (formulate_builds_exactly 2 (squared_distances 2 unit_dist tt));
    [lia|exact unit_squares_shape].
Defined.

(** ** Running [optimize_sdp] *)

(** For [n >= 2] the run is: [n * n] oracle calls, one solve of the
    formulated problem with the default [verbose], the square root of the
    value of [D2], and the four-element list. *)
Lemma optimize_sdp_run {Arg} (backend : cp.Backend) (n : Z)
  (dist_func : Oracle Arg) (dist_arg : Arg) (verbose : bool) (w : World) :
  2 <= n ->
  optimize_sdp backend n dist_func dist_arg verbose w
  = let p := formulated_problem n (squared_distances n dist_func dist_arg) in
    let out := backend p in
    (match np.sqrt (cp.value_D2 out) with
     | Ok D => Ok [PyStatus (cp.status out); PyFloat D;
                   py_value (cp.value_G out); py_value (cp.value_delta out)]
     | Raise e => Raise e
     end,
     mkWorld (oracle_calls w ++ all_pairs n)
             (solver_calls w ++ [(p, cp.solve_default_verbose)])).
Proof.
  intros Hn. unfold optimize_sdp. unfold bind at 1.
  rewrite build_closed_form by lia. unfold bind at 1. unfold lift at 1.
  rewrite formulate_closed_form
    by (try apply squared_distances_shape; lia).
  unfold bind at 1. unfold Problem_solve at 1.
  unfold bind, lift, ret. cbn [oracle_calls solver_calls].
  destruct (np.sqrt _); reflexivity.
Qed.


(** A negative [n] is refused by [np.zeros] on line 22. *)
Lemma optimize_sdp_n_negative {Arg} (backend : cp.Backend) (n : Z)
  (dist_func : Oracle Arg) (dist_arg : Arg) (verbose : bool) (w : World) :
  n < 0 ->
  optimize_sdp backend n dist_func dist_arg verbose w
  = (Raise ValueError_negative_dimensions, w).
Proof.
  intros Hn. unfold optimize_sdp, build_dist_matrix_sq, np.zeros.
  replace (n <? 0) with true by (symmetry; apply Z.ltb_lt; lia).
  reflexivity.
Qed.



Lemma sqrt_of_negative (x : R) : (x < 0)%R -> np.sqrt (Some x) = Ok np.NaN.
Proof.
  intros H. unfold np.sqrt. destruct (Rlt_dec x 0); [reflexivity|lra].
Qed.

Lemma sqrt_of_nonnegative (x : R) :
  (0 <= x)%R -> np.sqrt (Some x) = Ok (np.Finite (sqrt x)).
Proof.
  intros H. unfold np.sqrt. destruct (Rlt_dec x 0); [lra|reflexivity].
Qed.

(** The problem formulated for [asym_dist] on three vertices has no
    feasible point: [G] symmetric forces [delta[1,2] = delta[2,1]], while
    [delta[1,2] <= D2 * 0] and [delta[2,1] >= 1]. *)
Lemma asym_problem_infeasible (rho : cp.Assignment) :
  ~ cp.feasible rho (formulated_problem 3 (squared_distances 3 asym_dist tt)).
Proof.
  intros Hfeas. apply feasible_iff in Hfeas.
  destruct Hfeas as [Hsym [_ [_ [H3 [H4 H5]]]]].
  assert (Hlo := H3 2 1 ltac:(lia) ltac:(lia)).
  assert (Hhi := H4 1 2 ltac:(lia) ltac:(lia)).
  assert (H12 := H5 1 2 ltac:(lia) ltac:(lia)).
  assert (H21 := H5 2 1 ltac:(lia) ltac:(lia)).
  rewrite squared_distances_entry in Hlo, Hhi by lia.
  unfold asym_dist in Hlo, Hhi. simpl in Hlo, Hhi, H12, H21.
  rewrite (Hsym 0 1) in H12 by lia. lra.
Qed.

(** ** The claims on the solve and on the result *)

(** C3.  What the code does when the solver reports infeasibility: for the
    three-vertex oracle [asym_dist], whose problem has no feasible point, a
    solver reporting [infeasible] leaves the value of [D2] at [None], and
    [optimize_sdp] raises from the square root instead of returning the
    status with null values. *)
Theorem infeasible_status_raises :
  (forall rho,
     ~ cp.feasible rho
         (formulated_problem 3 (squared_distances 3 asym_dist tt))) /\
  cp.values_convention
    (reports_infeasible
       (formulated_problem 3 (squared_distances 3 asym_dist tt))) /\
  fst (optimize_sdp reports_infeasible 3 asym_dist tt false empty_world)
  = Raise TypeError_sqrt_of_None.
Proof.
  split; [exact asym_problem_infeasible|]. split.
  - unfold cp.values_convention, reports_infeasible. simpl. auto.
  - rewrite optimize_sdp_run by lia. reflexivity.
Qed.

(** Whatever the backend and the oracle: no value for [D2], no result. *)
Lemma no_solution_raises {Arg} (backend : cp.Backend) (n : Z)
  (dist_func : Oracle Arg) (dist_arg : Arg) (verbose : bool) (w : World) :
  2 <= n ->
  cp.value_D2
    (backend (formulated_problem n (squared_distances n dist_func dist_arg)))
  = None ->
  fst (optimize_sdp backend n dist_func dist_arg verbose w)
  = Raise TypeError_sqrt_of_None.
Proof.
  intros Hn Hnone. rewrite optimize_sdp_run by lia.
  cbv zeta. now rewrite Hnone.
Qed.



(** C5, as the code has it.  When the solver hands back a negative value
    for [D2], [optimize_sdp] raises nothing and checks nothing: it returns
    the status the solver reported, unchanged, with [D] not-a-number and
    [G] and [delta] as the solver left them. *)
Theorem negative_D2_passes_through {Arg} (backend : cp.Backend) (n : Z)
  (dist_func : Oracle Arg) (dist_arg : Arg) (verbose : bool) (w : World)
  (d2 : R) :
  2 <= n ->
  cp.value_D2
    (backend (formulated_problem n (squared_distances n dist_func dist_arg)))
  = Some d2 ->
  (d2 < 0)%R ->
  let out :=
    backend (formulated_problem n (squared_distances n dist_func dist_arg)) in
  fst (optimize_sdp backend n dist_func dist_arg verbose w)
  = Ok [PyStatus (cp.status out); PyFloat np.NaN;
        py_value (cp.value_G out); py_value (cp.value_delta out)].
Proof.
  intros Hn Hd2 Hneg. rewrite optimize_sdp_run by lia.
  cbv zeta. rewrite Hd2, sqrt_of_negative by exact Hneg. reflexivity.
Qed.

Lemma negative_D2_passes_through_witness :
  (-1 < 0)%R /\
  fst (optimize_sdp (reports_optimal (-1)) 2 unit_dist tt false empty_world)
  = Ok [PyStatus cp.optimal; PyFloat np.NaN;
        PyArray [[1%R]]; PyArray [[0%R; 1%R]; [1%R; 0%R]]].
Proof.
  split; [lra|].
  apply (negative_D2_passes_through (reports_optimal (-1)) 2 unit_dist tt
           false empty_world (-1)); [lia|reflexivity|lra].
Defined.

(** C5, as stated, fails: with a solver that reports [optimal] and the
    value [-1] for [D2], the status returned is [optimal], not
    [solver_error]. *)
Lemma negative_D2_not_reported_as_solver_error :
  fst (optimize_sdp (reports_optimal (-1)) 2 unit_dist tt false empty_world)
  = Ok [PyStatus cp.optimal; PyFloat np.NaN;
        PyArray [[1%R]]; PyArray [[0%R; 1%R]; [1%R; 0%R]]] /\
  ~ (exists D G delta,
       fst (optimize_sdp (reports_optimal (-1)) 2 unit_dist tt false
              empty_world)
       = Ok [PyStatus cp.solver_error; D; G; delta]).
Proof.
  assert (H : fst (optimize_sdp (reports_optimal (-1)) 2 unit_dist tt false
                     empty_world)
              = Ok [PyStatus cp.optimal; PyFloat np.NaN;
                    PyArray [[1%R]]; PyArray [[0%R; 1%R]; [1%R; 0%R]]]).
  { rewrite optimize_sdp_run by lia. cbv zeta.
    unfold reports_optimal at 1. cbn [cp.value_D2].
    rewrite sqrt_of_negative by lra. reflexivity. }
  split; [exact H|].
  intros [D [G [delta Heq]]]. rewrite H in Heq. discriminate Heq.
Qed.

(** C6.  What the code does with [verbose]: called with [verbose = true],
    [optimize_sdp] still solves with [verbose = false], the default of the
    solve, and the whole run is the one of [verbose = false]. *)
Theorem verbose_is_not_forwarded :
  solver_calls
    (snd (optimize_sdp (reports_optimal 0) 2 unit_dist tt true empty_world))
  = [(formulated_problem 2 (squared_distances 2 unit_dist tt), false)] /\
  optimize_sdp (reports_optimal 0) 2 unit_dist tt true empty_world
  = optimize_sdp (reports_optimal 0) 2 unit_dist tt false empty_world.
Proof.
  split; [|reflexivity].
  rewrite optimize_sdp_run by lia. reflexivity.
Qed.

(** The flag is dropped for every input. *)
Lemma verbose_ignored {Arg} (backend : cp.Backend) (n : Z)
  (dist_func : Oracle Arg) (dist_arg : Arg) (w : World) :
  optimize_sdp backend n dist_func dist_arg true w
  = optimize_sdp backend n dist_func dist_arg false w.
Proof. reflexivity. Qed.

(** C7.  When the solve ends with status [optimal] (so that, by cvxpy's
    convention, the variables have values), [optimize_sdp] returns the list
    of four components [status, D, G, delta] in this order, where [D] is
    numpy's square root of the value of [D2], the real square root whenever
    that value is not negative, and [G] and [delta] are the values of the
    variables. *)
Theorem optimal_result_tuple {Arg} (backend : cp.Backend) (n : Z)
  (dist_func : Oracle Arg) (dist_arg : Arg) (verbose : bool) (w : World) :
  2 <= n ->
  cp.status
    (backend (formulated_problem n (squared_distances n dist_func dist_arg)))
  = cp.optimal ->
  cp.values_convention
    (backend (formulated_problem n (squared_distances n dist_func dist_arg))) ->
  let out :=
    backend (formulated_problem n (squared_distances n dist_func dist_arg)) in
  exists d2 g dl D,
    cp.value_D2 out = Some d2 /\
    cp.value_G out = Some g /\
    cp.value_delta out = Some dl /\
    np.sqrt (Some d2) = Ok D /\
    ((0 <= d2)%R -> D = np.Finite (sqrt d2)) /\
    fst (optimize_sdp backend n dist_func dist_arg verbose w)
    = Ok [PyStatus cp.optimal; PyFloat D; PyArray g; PyArray dl].
Proof.
  intros Hn Hst Hconv out. rewrite optimize_sdp_run by lia. cbv zeta.
  fold out. unfold cp.values_convention in Hconv. fold out in Hconv, Hst.
  rewrite Hst in Hconv. simpl in Hconv. destruct Hconv as [H1 [H2 H3]].
  destruct (cp.value_D2 out) as [d2|] eqn:E1; [|congruence].
  destruct (cp.value_G out) as [g|] eqn:E2; [|congruence].
  destruct (cp.value_delta out) as [dl|] eqn:E3; [|congruence].
  destruct (Rlt_dec d2 0) as [Hneg | Hpos].
  - exists d2, g, dl, np.NaN.
    rewrite sqrt_of_negative by exact Hneg. rewrite Hst.
    repeat split; try reflexivity. intros H. lra.
  - exists d2, g, dl, (np.Finite (sqrt d2)).
    rewrite sqrt_of_nonnegative by lra. rewrite Hst.
    repeat split; reflexivity.
Qed.

Lemma optimal_result_tuple_witness :
  2 <= 2 /\
  cp.status
    (reports_optimal 0
       (formulated_problem 2 (squared_distances 2 unit_dist tt)))
  = cp.optimal /\
  let out :=
    reports_optimal 0
      (formulated_problem 2 (squared_distances 2 unit_dist tt)) in
  exists d2 g dl D,
    cp.value_D2 out = Some d2 /\
    cp.value_G out = Some g /\
    cp.value_delta out = Some dl /\
    np.sqrt (Some d2) = Ok D /\
    ((0 <= d2)%R -> D = np.Finite (sqrt d2)) /\
    fst (optimize_sdp (reports_optimal 0) 2 unit_dist tt false empty_world)
    = Ok [PyStatus cp.optimal; PyFloat D; PyArray g; PyArray dl].
Proof.
  split; [lia|]. split; [reflexivity|].
  apply (optimal_result_tuple (reports_optimal 0) 2 unit_dist tt false
           empty_world).
  - lia.
  - reflexivity.
  - unfold cp.values_convention, reports_optimal. simpl.
    repeat split; discriminate.
Defined.

(** * Further properties of [optimize_sdp] *)

(** ** Sums *)

Lemma rsum_plus (l : list Z) (f g : Z -> R) :
  cp.rsum l (fun k => (f k + g k)%R) = (cp.rsum l f + cp.rsum l g)%R.
Proof.
  induction l as [|k l IH]; simpl; [lra|]. rewrite IH. lra.
Qed.

Lemma rsum_scal (l : list Z) (c : R) (f : Z -> R) :
  cp.rsum l (fun k => (c * f k)%R) = (c * cp.rsum l f)%R.
Proof.
  induction l as [|k l IH]; simpl; [lra|]. rewrite IH. lra.
Qed.

Lemma rsum_ext (l : list Z) (f g : Z -> R) :
  (forall k, In k l -> f k = g k) -> cp.rsum l f = cp.rsum l g.
Proof.
  intros H. induction l as [|k l IH]; simpl; [reflexivity|].
  rewrite H by (now left). rewrite IH; [reflexivity|].
  intros; apply H; now right.
Qed.

Lemma rsum_nonneg (l : list Z) (f : Z -> R) :
  (forall k, (0 <= f k)%R) -> (0 <= cp.rsum l f)%R.
Proof.
  intros H. induction l as [|k l IH]; simpl; [lra|].
  specialize (H k). lra.
Qed.

Lemma rsum_pick_absent (l : list Z) (i : Z) (f : Z -> R) :
  ~ In i l -> cp.rsum l (fun j => if i =? j then f j else 0%R) = 0%R.
Proof.
  induction l as [|k l IH]; intros Hni; simpl; [reflexivity|].
  destruct (Z.eqb_spec i k) as [-> | Hne].
  - exfalso. apply Hni. now left.
  - rewrite IH; [lra|]. intros Hin. apply Hni. now right.
Qed.

Lemma rsum_pick (l : list Z) (i : Z) (f : Z -> R) :
  NoDup l -> In i l ->
  cp.rsum l (fun j => if i =? j then f j else 0%R) = f i.
Proof.
  induction l as [|k l IH]; intros Hnd Hin; simpl; [destruct Hin|].
  inversion Hnd as [|? ? Hnk Hnd']; subst.
  destruct (Z.eqb_spec i k) as [-> | Hne].
  - rewrite rsum_pick_absent by exact Hnk. lra.
  - destruct Hin as [Heq | Hin]; [congruence|].
    rewrite IH by assumption. lra.
Qed.

Lemma NoDup_map_injective {A B} (f : A -> B) (l : list A) :
  (forall x y, f x = f y -> x = y) -> NoDup l -> NoDup (map f l).
Proof.
  intros Hinj Hnd. induction Hnd as [|x l Hx Hnd IH]; simpl; constructor.
  - intros Hin. apply in_map_iff in Hin. destruct Hin as [y [Hy Hin]].
    apply Hinj in Hy. now subst.
  - exact IH.
Qed.

Lemma NoDup_range (a b : Z) : NoDup (range a b).
Proof.
  unfold range. apply NoDup_map_injective; [|apply seq_NoDup].
  intros x y H. lia.
Qed.

(** [x^T (t J) x = t (sum x)^2]. *)
Lemma quad_form_constant (m : Z) (t : R) (x : Z -> R) :
  cp.quad_form m (fun _ _ => t) x
  = (t * (cp.rsum (range 0 m) x * cp.rsum (range 0 m) x))%R.
Proof.
  unfold cp.quad_form.
  rewrite (rsum_ext _ _ (fun i => (x i * t * cp.rsum (range 0 m) x)%R)).
  - rewrite (rsum_ext _ _ (fun i => (t * cp.rsum (range 0 m) x * x i)%R))
      by (intros; lra).
    rewrite rsum_scal. lra.
  - intros i _. now rewrite rsum_scal.
Qed.

(** [x^T (c I) x = c sum x_i^2]. *)
Lemma quad_form_diagonal (m : Z) (c : R) (x : Z -> R) :
  cp.quad_form m (fun i j => if i =? j then c else 0%R) x
  = (c * cp.rsum (range 0 m) (fun i => (x i * x i)%R))%R.
Proof.
  unfold cp.quad_form. rewrite <- rsum_scal. apply rsum_ext. intros i Hi.
  rewrite (rsum_ext _ _ (fun j => if i =? j then (x i * c * x j)%R else 0%R)).
  - rewrite rsum_pick by (auto using NoDup_range). lra.
  - intros j _. destruct (i =? j); lra.
Qed.

Lemma quad_form_plus (m : Z) (A B : Z -> Z -> R) (x : Z -> R) :
  cp.quad_form m (fun i j => (A i j + B i j)%R) x
  = (cp.quad_form m A x + cp.quad_form m B x)%R.
Proof.
  unfold cp.quad_form. rewrite <- rsum_plus. apply rsum_ext. intros i _.
  rewrite <- rsum_plus. apply rsum_ext. intros j _. lra.
Qed.

Lemma quad_form_ext (m : Z) (A B : Z -> Z -> R) (x : Z -> R) :
  (forall i j, A i j = B i j) -> cp.quad_form m A x = cp.quad_form m B x.
Proof.
  intros H. unfold cp.quad_form. apply rsum_ext. intros i _.
  apply rsum_ext. intros j _. now rewrite H.
Qed.

Lemma constant_is_PSD (m : Z) (t : R) :
  (0 <= t)%R -> cp.is_PSD m (fun _ _ => t).
Proof.
  intros Ht x. rewrite quad_form_constant.
  pose proof (Rle_0_sqr (cp.rsum (range 0 m) x)) as H. unfold Rsqr in H.
  now apply Rmult_le_pos.
Qed.

Lemma diagonal_is_PSD (m : Z) (c : R) :
  (0 <= c)%R -> cp.is_PSD m (fun i j => if i =? j then c else 0%R).
Proof.
  intros Hc x. rewrite quad_form_diagonal. apply Rmult_le_pos; [exact Hc|].
  apply rsum_nonneg. intros k.
  pose proof (Rle_0_sqr (x k)) as H. unfold Rsqr in H. exact H.
Qed.

(** ** Bounds that hold at every feasible point *)

Lemma D2_at_least_1 (n : Z) (sq : np.ndarray) (rho : cp.Assignment) (i j : Z) :
  cp.feasible rho (formulated_problem n sq) ->
  1 <= i < n -> 1 <= j < n -> (0 < np.entry sq i j)%R ->
  (1 <= rho cp.id_D2 0%Z 0%Z)%R.
Proof.
  intros Hfeas Hi Hj Hpos. apply feasible_iff in Hfeas.
  destruct Hfeas as [_ [_ [_ [H3 [H4 _]]]]].
  assert (Hlo := H3 i j ltac:(lia) ltac:(lia)).
  assert (Hhi := H4 i j Hi Hj).
  set (d2 := rho cp.id_D2 0%Z 0%Z) in *. set (s := np.entry sq i j) in *.
  destruct (Rle_lt_dec 1 d2) as [Hge | Hlt]; [exact Hge|].
  exfalso. assert ((1 - d2) * s > 0)%R by (apply Rmult_gt_0_compat; lra).
  lra.
Qed.

Lemma delta_block_symmetric (n : Z) (sq : np.ndarray) (rho : cp.Assignment)
  (i j : Z) :
  cp.feasible rho (formulated_problem n sq) ->
  1 <= i < n -> 1 <= j < n ->
  rho cp.id_delta i j = rho cp.id_delta j i.
Proof.
  intros Hfeas Hi Hj. apply feasible_iff in Hfeas.
  destruct Hfeas as [Hsym [_ [_ [_ [_ H5]]]]].
  pose proof (H5 i j Hi Hj) as Hij. pose proof (H5 j i Hj Hi) as Hji.
  rewrite (Hsym (i - 1) (j - 1)) in Hij by lia. lra.
Qed.

(** X1.  A negative [n] is refused by the allocation of the matrix on
    line 22: the call raises before the oracle or the solver is called. *)
Theorem negative_n_raises_before_any_call {Arg} (backend : cp.Backend)
  (n : Z) (dist_func : Oracle Arg) (dist_arg : Arg) (verbose : bool)
  (w : World) :
  n < 0 ->
  optimize_sdp backend n dist_func dist_arg verbose w
  = (Raise ValueError_negative_dimensions, w).
Proof. apply optimize_sdp_n_negative. Qed.

Lemma negative_n_raises_before_any_call_witness :
  -1 < 0 /\
  optimize_sdp reports_infeasible (-1) unit_dist tt false empty_world
  = (Raise ValueError_negative_dimensions, empty_world).
Proof.
  split; [lia|].
  apply (negative_n_raises_before_any_call reports_infeasible (-1) unit_dist
           tt false empty_world). lia.
Defined.

(** X2.  For [n >= 2] the effects of a call do not depend on what the
    solver answers, nor on whether the call then raises: the oracle is
    called on the [n * n] pairs, and the solver exactly once, on the problem
    formulated from the squared oracle values. *)
Theorem one_solve_whatever_the_outcome {Arg} (backend : cp.Backend) (n : Z)
  (dist_func : Oracle Arg) (dist_arg : Arg) (verbose : bool) (w : World) :
  2 <= n ->
  exists p,
    formulate n (squared_distances n dist_func dist_arg) = Ok p /\
    oracle_calls (snd (optimize_sdp backend n dist_func dist_arg verbose w))
    = oracle_calls w ++ all_pairs n /\
    solver_calls (snd (optimize_sdp backend n dist_func dist_arg verbose w))
    = solver_calls w ++ [(p, false)].
Proof.
  intros Hn.
  exists (formulated_problem n (squared_distances n dist_func dist_arg)).
  split.
  - apply formulate_closed_form; [lia|apply squared_distances_shape; lia].
  - rewrite optimize_sdp_run by lia. split; reflexivity.
Qed.

Lemma one_solve_whatever_the_outcome_witness :
  2 <= 3 /\
  exists p,
    formulate 3 (squared_distances 3 asym_dist tt) = Ok p /\
    oracle_calls
      (snd (optimize_sdp reports_infeasible 3 asym_dist tt false empty_world))
    = oracle_calls empty_world ++ all_pairs 3 /\
    solver_calls
      (snd (optimize_sdp reports_infeasible 3 asym_dist tt false empty_world))
    = solver_calls empty_world ++ [(p, false)].
Proof.
  split; [lia|].
  apply (one_solve_whatever_the_outcome reports_infeasible 3 asym_dist tt
           false empty_world). lia.
Defined.

(** X3.  At every feasible point [D2 >= 1] as soon as some pair of
    [[1, n) x [1, n)] has a nonzero squared distance: the slack lies between
    the squared distance and [D2] times it. *)
Theorem feasible_D2_at_least_1 (n : Z) (sq : np.ndarray) (p : cp.Problem)
  (rho : cp.Assignment) (i j : Z) :
  2 <= n -> np.has_shape sq n n ->
  formulate n sq = Ok p ->
  cp.feasible rho p ->
  1 <= i < n -> 1 <= j < n -> (0 < np.entry sq i j)%R ->
  (1 <= rho cp.id_D2 0%Z 0%Z)%R.
Proof.
  intros Hn Hsq Hp Hfeas Hi Hj Hpos.
  rewrite formulate_closed_form in Hp by assumption. injection Hp as <-.
  now apply (D2_at_least_1 n sq rho i j).
Qed.

(** X4.  At every feasible point, for [i, j] in [[1, n)], the squared
    distance of [(j, i)] is at most [D2] times that of [(i, j)]; so an
    oracle with [dist(i,j) = 0 <> dist(j,i)] for such a pair gives a problem
    with no feasible point. *)
Theorem asymmetry_bounded_by_D2 (n : Z) (sq : np.ndarray) (p : cp.Problem) :
  2 <= n -> np.has_shape sq n n ->
  formulate n sq = Ok p ->
  (forall rho, cp.feasible rho p ->
     forall i j, 1 <= i < n -> 1 <= j < n ->
       (np.entry sq j i <= rho cp.id_D2 0%Z 0%Z * np.entry sq i j)%R) /\
  ((exists i j, 1 <= i < n /\ 1 <= j < n /\
                np.entry sq i j = 0%R /\ (0 < np.entry sq j i)%R) ->
   forall rho, ~ cp.feasible rho p).
Proof.
  intros Hn Hsq Hp.
  rewrite formulate_closed_form in Hp by assumption. injection Hp as <-.
  assert (Hbound : forall rho,
            cp.feasible rho (formulated_problem n sq) ->
            forall i j, 1 <= i < n -> 1 <= j < n ->
              (np.entry sq j i <= rho cp.id_D2 0%Z 0%Z * np.entry sq i j)%R).
  { intros rho Hfeas i j Hi Hj.
    pose proof (delta_block_symmetric n sq rho i j Hfeas Hi Hj) as Hsym.
    apply feasible_iff in Hfeas.
    destruct Hfeas as [_ [_ [_ [H3 [H4 _]]]]].
    assert (Hlo := H3 j i ltac:(lia) ltac:(lia)).
    assert (Hhi := H4 i j Hi Hj). lra. }
  split; [exact Hbound|].
  intros [i [j [Hi [Hj [Hz Hpos]]]]] rho Hfeas.
  pose proof (Hbound rho Hfeas i j Hi Hj) as H. rewrite Hz in H. lra.
Qed.

Lemma asymmetry_bounded_by_D2_witness :
  2 <= 3 /\ forall rho,
    ~ cp.feasible rho (formulated_problem 3 (squared_distances 3 asym_dist tt)).
Proof.
  split; [lia|].
  apply (asymmetry_bounded_by_D2 3 (squared_distances 3 asym_dist tt)).
  - lia.
  - apply squared_distances_shape. lia.
  - apply formulate_closed_form; [lia|apply squared_distances_shape; lia].
  - exists 1, 2. rewrite !squared_distances_entry by lia.
    unfold asym_dist. simpl. repeat split; try lia; lra.
Defined.

(** X5.  Whatever the oracle, negative outputs included, every slack is
    nonnegative at a feasible point of the problem the program builds. *)
Theorem feasible_delta_nonnegative {Arg} (n : Z) (dist_func : Oracle Arg)
  (dist_arg : Arg) (p : cp.Problem) (rho : cp.Assignment) :
  2 <= n ->
  formulate n (squared_distances n dist_func dist_arg) = Ok p ->
  cp.feasible rho p ->
  forall i j, 0 <= i < n -> 0 <= j < n -> (0 <= rho cp.id_delta i j)%R.
Proof.
  intros Hn Hp Hfeas i j Hi Hj.
  rewrite formulate_closed_form in Hp
    by (try apply squared_distances_shape; lia).
  injection Hp as <-. apply feasible_iff in Hfeas.
  destruct Hfeas as [_ [_ [_ [H3 _]]]].
  specialize (H3 i j Hi Hj). rewrite squared_distances_entry in H3 by lia.
  pose proof (pow2_ge_0 (dist_func i j dist_arg)). lra.
Qed.

Lemma feasible_delta_nonnegative_witness :
  2 <= 2 /\
  forall i j, 0 <= i < 2 -> 0 <= j < 2 -> (0 <= two_points cp.id_delta i j)%R.
Proof.
  split; [lia|].
  apply (feasible_delta_nonnegative 2 unit_dist tt
           (formulated_problem 2 (squared_distances 2 unit_dist tt))).
  - lia.
  - apply formulate_closed_form; [lia|exact unit_squares_shape].
  - exact two_points_feasible.
Defined.

Ltac split_index i :=
  match goal with
  | H : 0 <= i < 2 |- _ =>
      let E := fresh in
      assert (E : i = 0 \/ i = 1) by lia; destruct E as [E | E]; subst i
  | H : 0 <= i < 3 |- _ =>
      let E := fresh in
      assert (E : i = 0 \/ i = 1 \/ i = 2) by lia;
      destruct E as [E | [E | E]]; subst i
  | H : 1 <= i < 3 |- _ =>
      let E := fresh in
      assert (E : i = 1 \/ i = 2) by lia; destruct E as [E | E]; subst i
  end.

Ltac compute_entries :=
  cbn;
  try change (Pos.to_nat 1) with 1%nat;
  try change (Pos.to_nat 2) with 2%nat;
  cbn.

(** Three vertices at pairwise distance 1 embed isometrically: the values
    of [reports_triangle] are a feasible point with [D2 = 1]. *)
Lemma triangle_feasible :
  cp.feasible (point_of_values 1 triangle_G triangle_delta)
    (formulated_problem 3 (squared_distances 3 unit_dist tt)).
Proof.
  apply feasible_iff. split.
  - intros i j Hi Hj. change (3 - 1) with 2 in Hi, Hj.
    split_index i; split_index j; compute_entries; reflexivity.
  - unfold satisfies_formulation. repeat split.
    + intros x. unfold cp.quad_form.
      change (range 0 (3 - 1)) with [0; 1]. compute_entries.
      pose proof (Rle_0_sqr (x 0 + x 1)) as H1.
      pose proof (Rle_0_sqr (x 0)) as H2.
      pose proof (Rle_0_sqr (x 1)) as H3.
      unfold Rsqr in H1, H2, H3. lra.
    + simpl. lra.
    + intros i j Hi Hj. rewrite squared_distances_entry by lia.
      split_index i; split_index j; compute_entries; lra.
    + intros i j Hi Hj. rewrite squared_distances_entry by lia.
      split_index i; split_index j; compute_entries; lra.
    + intros i j Hi Hj.
      split_index i; split_index j; compute_entries; lra.
Qed.

Lemma triangle_squares_shape :
  np.has_shape (squared_distances 3 unit_dist tt) 3 3.
Proof. apply squared_distances_shape. lia. Qed.

Lemma feasible_D2_at_least_1_witness :
  (0 < np.entry (squared_distances 3 unit_dist tt) 1 2)%R /\
  (1 <= point_of_values 1 triangle_G triangle_delta cp.id_D2 0%Z 0%Z)%R.
Proof.
  assert (Hpos : (0 < np.entry (squared_distances 3 unit_dist tt) 1 2)%R).
  { rewrite squared_distances_entry by lia. cbn. lra. }
  split; [exact Hpos|].
  apply (feasible_D2_at_least_1 3 (squared_distances 3 unit_dist tt)
           (formulated_problem 3 (squared_distances 3 unit_dist tt))
           (point_of_values 1 triangle_G triangle_delta) 1 2).
  - lia.
  - exact triangle_squares_shape.
  - apply formulate_closed_form; [lia|exact triangle_squares_shape].
  - exact triangle_feasible.
  - lia.
  - lia.
  - exact Hpos.
Defined.

(** ** Points the formulation admits *)

Lemma shift_vertex_0_feasible (n : Z) (sq : np.ndarray)
  (rho : cp.Assignment) (t : R) :
  (0 <= t)%R ->
  cp.feasible rho (formulated_problem n sq) ->
  cp.feasible (shift_vertex_0 rho t) (formulated_problem n sq).
Proof.
  intros Ht Hfeas. apply feasible_iff in Hfeas. apply feasible_iff.
  destruct Hfeas as [Hsym [H1 [H2 [H3 [H4 H5]]]]].
  assert (HPSD : cp.is_PSD (n - 1) (shift_vertex_0 rho t cp.id_G)).
  { intros x.
    change (shift_vertex_0 rho t cp.id_G)
      with (fun i j => (rho cp.id_G i j + (fun _ _ : Z => t) i j)%R).
    rewrite quad_form_plus.
    pose proof (H1 x). pose proof (constant_is_PSD (n - 1) t Ht x). lra. }
  split.
  - intros i j Hi Hj. unfold shift_vertex_0. now rewrite (Hsym i j).
  - unfold satisfies_formulation.
    split; [exact HPSD|]. split; [exact H2|]. split; [|split].
    + intros i j Hi Hj. specialize (H3 i j Hi Hj). unfold shift_vertex_0.
      destruct ((i =? 0) && (1 <=? j)); lra.
    + intros i j Hi Hj. specialize (H4 i j Hi Hj). unfold shift_vertex_0.
      replace (i =? 0) with false by (symmetry; apply Z.eqb_neq; lia).
      exact H4.
    + intros i j Hi Hj. specialize (H5 i j Hi Hj). unfold shift_vertex_0.
      replace (i =? 0) with false by (symmetry; apply Z.eqb_neq; lia).
      rewrite Z.eqb_refl.
      replace (1 <=? i) with true by (symmetry; apply Z.leb_le; lia).
      replace (1 <=? j) with true by (symmetry; apply Z.leb_le; lia).
      simpl. rewrite H5. lra.
Qed.

(** X6.  The bound [D2] does not reach the pairs that involve vertex 0:
    from any feasible point, raising every slack [delta[0,j]], [j >= 1], by
    the same [t >= 0] (and [G] by [t] throughout) gives a feasible point
    with the same [D2]. *)
Theorem slack_from_vertex_0_is_unbounded (n : Z) (sq : np.ndarray)
  (p : cp.Problem) (rho : cp.Assignment) (t : R) :
  2 <= n -> np.has_shape sq n n ->
  formulate n sq = Ok p ->
  cp.feasible rho p ->
  (0 <= t)%R ->
  cp.feasible (shift_vertex_0 rho t) p /\
  shift_vertex_0 rho t cp.id_D2 0 0 = rho cp.id_D2 0 0 /\
  (forall j, 1 <= j < n ->
     shift_vertex_0 rho t cp.id_delta 0 j = (rho cp.id_delta 0%Z j + t)%R).
Proof.
  intros Hn Hsq Hp Hfeas Ht.
  rewrite formulate_closed_form in Hp by assumption. injection Hp as <-.
  split; [now apply shift_vertex_0_feasible|]. split; [reflexivity|].
  intros j Hj. unfold shift_vertex_0. simpl.
  now replace (1 <=? j) with true by (symmetry; apply Z.leb_le; lia).
Qed.

Lemma slack_from_vertex_0_is_unbounded_witness :
  (0 <= 5)%R /\
  cp.feasible (shift_vertex_0 two_points 5)
    (formulated_problem 2 (squared_distances 2 unit_dist tt)) /\
  shift_vertex_0 two_points 5 cp.id_D2 0 0 = two_points cp.id_D2 0 0 /\
  (forall j, 1 <= j < 2 ->
     shift_vertex_0 two_points 5 cp.id_delta 0 j
     = (two_points cp.id_delta 0%Z j + 5)%R).
Proof.
  split; [lra|].
  apply (slack_from_vertex_0_is_unbounded 2
           (squared_distances 2 unit_dist tt)).
  - lia.
  - exact unit_squares_shape.
  - apply formulate_closed_form; [lia|exact unit_squares_shape].
  - exact two_points_feasible.
  - lra.
Defined.

Lemma simplex_G_is_PSD (m : Z) (M : R) :
  (0 <= M)%R -> cp.is_PSD m (fun i j => if i =? j then M else (M / 2)%R).
Proof.
  intros HM x.
  rewrite (quad_form_ext m _
             (fun i j => ((fun _ _ : Z => M / 2) i j
                          + (fun i j : Z => if i =? j then M / 2 else 0) i j)%R))
    by (intros i j; destruct (i =? j); lra).
  rewrite quad_form_plus.
  pose proof (constant_is_PSD m (M / 2) ltac:(lra) x).
  pose proof (diagonal_is_PSD m (M / 2) ltac:(lra) x). lra.
Qed.

Lemma simplex_point_feasible_in (n : Z) (sq : np.ndarray) (m M : R) :
  2 <= n ->
  (0 < m)%R ->
  (forall i j, 0 <= i < n -> 0 <= j < n -> (np.entry sq i j <= M)%R) ->
  (forall i, 1 <= i < n -> np.entry sq i i = 0%R) ->
  (forall i j, 1 <= i < n -> 1 <= j < n -> i <> j ->
     (m <= np.entry sq i j)%R) ->
  cp.feasible (simplex_point M (M / m)) (formulated_problem n sq).
Proof.
  intros Hn Hm HM Hdiag Hoff.
  assert (HM0 : (0 <= M)%R).
  { rewrite <- (Hdiag 1) by lia. apply HM; lia. }
  assert (Hq : (0 <= M / m)%R).
  { apply Rmult_le_pos; [exact HM0|]. left. now apply Rinv_0_lt_compat. }
  assert (Hqm : (M / m * m = M)%R) by (field; lra).
  apply feasible_iff. split.
  - intros i j _ _. unfold simplex_point. now rewrite (Z.eqb_sym i j).
  - unfold satisfies_formulation.
    split; [now apply simplex_G_is_PSD|]. split; [exact Hq|].
    split; [|split].
    + intros i j Hi Hj. unfold simplex_point.
      destruct ((1 <=? i) && (i =? j)) eqn:Hb; [|now apply HM].
      apply andb_prop in Hb. destruct Hb as [Hi1 Hij].
      apply Z.leb_le in Hi1. apply Z.eqb_eq in Hij. subst j.
      rewrite Hdiag by lia. lra.
    + intros i j Hi Hj. unfold simplex_point.
      replace (1 <=? i) with true by (symmetry; apply Z.leb_le; lia).
      destruct (Z.eqb_spec i j) as [-> | Hne]; simpl.
      * rewrite Hdiag by lia. lra.
      * pose proof (Hoff i j Hi Hj Hne) as Hlow.
        assert (M / m * m <= M / m * np.entry sq i j)%R
          by (apply Rmult_le_compat_l; assumption).
        lra.
    + intros i j Hi Hj. unfold simplex_point.
      replace (1 <=? 0) with false by reflexivity.
      replace (1 <=? i) with true by (symmetry; apply Z.leb_le; lia).
      simpl.
      destruct (Z.eqb_spec i j) as [-> | Hne].
      * rewrite Z.eqb_refl. lra.
      * replace (i - 1 =? j - 1) with false
          by (symmetry; apply Z.eqb_neq; lia).
        lra.
Qed.

(** X7.  The problem is feasible for every well-formed distance matrix:
    when the squared distances are at most [M], vanish on the diagonal of
    the vertices [1 .. n-1] and are at least [m > 0] between distinct ones,
    the regular simplex of squared side [M] is a feasible point with
    [D2 = M / m]. *)
Theorem simplex_point_is_feasible (n : Z) (sq : np.ndarray) (p : cp.Problem)
  (m M : R) :
  2 <= n -> np.has_shape sq n n ->
  formulate n sq = Ok p ->
  (0 < m)%R ->
  (forall i j, 0 <= i < n -> 0 <= j < n -> (np.entry sq i j <= M)%R) ->
  (forall i, 1 <= i < n -> np.entry sq i i = 0%R) ->
  (forall i j, 1 <= i < n -> 1 <= j < n -> i <> j ->
     (m <= np.entry sq i j)%R) ->
  cp.feasible (simplex_point M (M / m)) p.
Proof.
  intros Hn Hsq Hp Hm HM Hdiag Hoff.
  rewrite formulate_closed_form in Hp by assumption. injection Hp as <-.
  now apply simplex_point_feasible_in.
Qed.

Lemma simplex_point_is_feasible_witness :
  (0 < 1)%R /\
  cp.feasible (simplex_point 1 (1 / 1))
    (formulated_problem 3 (squared_distances 3 unit_dist tt)).
Proof.
  split; [lra|].
  apply (simplex_point_is_feasible 3 (squared_distances 3 unit_dist tt)).
  - lia.
  - exact triangle_squares_shape.
  - apply formulate_closed_form; [lia|exact triangle_squares_shape].
  - lra.
  - intros i j Hi Hj. rewrite squared_distances_entry by lia.
    unfold unit_dist. destruct (i =? j); simpl; lra.
  - intros i Hi. rewrite squared_distances_entry by lia.
    unfold unit_dist. rewrite Z.eqb_refl. simpl. lra.
  - intros i j Hi Hj Hne. rewrite squared_distances_entry by lia.
    unfold unit_dist. destruct (Z.eqb_spec i j); [contradiction|].
    simpl. lra.
Defined.

(** X8.  With two vertices the objective measures nothing: the only pair
    the bound [D2] reaches is [(1, 1)], so for every oracle with
    [dist(1,1) = 0] the point with [delta] the squared distances and
    [D2 = 0] is feasible, and 0 is the least value of [D2] over the
    feasible set, whatever the distance between the two vertices. *)
Theorem two_vertices_optimum_is_0 {Arg} (dist_func : Oracle Arg)
  (dist_arg : Arg) (p : cp.Problem) :
  dist_func 1 1 dist_arg = 0%R ->
  formulate 2 (squared_distances 2 dist_func dist_arg) = Ok p ->
  cp.feasible (degenerate_point (squared_distances 2 dist_func dist_arg)) p /\
  degenerate_point (squared_distances 2 dist_func dist_arg) cp.id_D2 0 0
  = 0%R /\
  (forall rho, cp.feasible rho p -> (0 <= rho cp.id_D2 0%Z 0%Z)%R).
Proof.
  intros Hdiag Hp.
  rewrite formulate_closed_form in Hp
    by (try apply squared_distances_shape; lia).
  injection Hp as <-. split; [|split; [reflexivity|]].
  - apply feasible_iff. split; [intros i j _ _; reflexivity|].
    unfold satisfies_formulation. split; [|split; [|split; [|split]]].
    + apply constant_is_PSD. rewrite squared_distances_entry by lia.
      apply pow2_ge_0.
    + simpl. lra.
    + intros i j _ _. simpl. lra.
    + intros i j Hi Hj.
      assert (i = 1) by lia. assert (j = 1) by lia. subst. simpl.
      rewrite squared_distances_entry, Hdiag by lia. simpl. lra.
    + intros i j Hi Hj.
      assert (i = 1) by lia. assert (j = 1) by lia. subst. simpl.
      rewrite (squared_distances_entry 2 dist_func dist_arg 1 1), Hdiag
        by lia.
      simpl. lra.
  - intros rho Hfeas. apply feasible_iff in Hfeas. apply Hfeas.
Qed.

Lemma two_vertices_optimum_is_0_witness :
  unit_dist 1 1 tt = 0%R /\
  cp.feasible (degenerate_point (squared_distances 2 unit_dist tt))
    (formulated_problem 2 (squared_distances 2 unit_dist tt)) /\
  degenerate_point (squared_distances 2 unit_dist tt) cp.id_D2 0 0 = 0%R /\
  (forall rho,
     cp.feasible rho (formulated_problem 2 (squared_distances 2 unit_dist tt)) ->
     (0 <= rho cp.id_D2 0%Z 0%Z)%R).
Proof.
  split; [reflexivity|].
  apply (two_vertices_optimum_is_0 unit_dist tt).
  - reflexivity.
  - apply formulate_closed_form; [lia|exact unit_squares_shape].
Defined.

(** X9.  From the solve to the result: when the solver reports [optimal]
    and the values it hands back are a feasible point, and some pair of
    vertices other than vertex 0 has a nonzero distance, the returned [D]
    is a number, [D >= 1] and [D * D] is the value of [D2]. *)
Theorem sound_optimum_gives_D_at_least_1 {Arg} (backend : cp.Backend)
  (n : Z) (dist_func : Oracle Arg) (dist_arg : Arg) (verbose : bool)
  (w : World) (d2 : R) (g dl : np.ndarray) (i j : Z) :
  2 <= n ->
  backend (formulated_problem n (squared_distances n dist_func dist_arg))
  = cp.mkOutcome cp.optimal (Some d2) (Some g) (Some dl) ->
  cp.feasible (point_of_values d2 g dl)
    (formulated_problem n (squared_distances n dist_func dist_arg)) ->
  1 <= i < n -> 1 <= j < n -> dist_func i j dist_arg <> 0%R ->
  exists D,
    fst (optimize_sdp backend n dist_func dist_arg verbose w)
    = Ok [PyStatus cp.optimal; PyFloat (np.Finite D); PyArray g; PyArray dl] /\
    (1 <= D)%R /\ (D * D = d2)%R.
Proof.
  intros Hn Hout Hfeas Hi Hj Hne.
  assert (Hd2 : (1 <= d2)%R).
  { apply (D2_at_least_1 n _ _ i j Hfeas Hi Hj).
    rewrite squared_distances_entry by lia.
    pose proof (pow2_ge_0 (dist_func i j dist_arg)) as Hsq.
    destruct Hsq as [Hpos | Hz]; [exact Hpos|].
    exfalso. apply Hne. symmetry in Hz. simpl in Hz.
    rewrite Rmult_1_r in Hz. apply Rmult_integral in Hz. tauto. }
  exists (sqrt d2). split; [|split].
  - rewrite optimize_sdp_run by lia. cbv zeta. rewrite Hout. cbn [cp.value_D2].
    rewrite sqrt_of_nonnegative by lra. reflexivity.
  - rewrite <- sqrt_1. apply sqrt_le_1; lra.
  - apply sqrt_sqrt. lra.
Qed.

Lemma sound_optimum_gives_D_at_least_1_witness :
  unit_dist 1 2 tt <> 0%R /\
  exists D,
    fst (optimize_sdp reports_triangle 3 unit_dist tt false empty_world)
    = Ok [PyStatus cp.optimal; PyFloat (np.Finite D);
          PyArray triangle_G; PyArray triangle_delta] /\
    (1 <= D)%R /\ (D * D = 1)%R.
Proof.
  assert (Hne : unit_dist 1 2 tt <> 0%R).
  { unfold unit_dist. simpl. lra. }
  split; [exact Hne|].
  apply (sound_optimum_gives_D_at_least_1 reports_triangle 3 unit_dist tt
           false empty_world 1 triangle_G triangle_delta 1 2).
  - lia.
  - reflexivity.
  - exact triangle_feasible.
  - lia.
  - lia.
  - exact Hne.
Defined.

(** X10.  Two vertices other than vertex 0 that the oracle puts at distance
    0 are glued together: at every feasible point the slack of the pair is
    0 in both orders. *)
Theorem zero_distance_forces_zero_slack (n : Z) (sq : np.ndarray)
  (p : cp.Problem) (rho : cp.Assignment) (i j : Z) :
  2 <= n -> np.has_shape sq n n ->
  formulate n sq = Ok p ->
  cp.feasible rho p ->
  1 <= i < n -> 1 <= j < n -> np.entry sq i j = 0%R ->
  rho cp.id_delta i j = 0%R /\ rho cp.id_delta j i = 0%R.
Proof.
  intros Hn Hsq Hp Hfeas Hi Hj Hz.
  rewrite formulate_closed_form in Hp by assumption. injection Hp as <-.
  pose proof (delta_block_symmetric n sq rho i j Hfeas Hi Hj) as Hsym.
  apply feasible_iff in Hfeas. destruct Hfeas as [_ [_ [_ [H3 [H4 _]]]]].
  assert (Hlo := H3 i j ltac:(lia) ltac:(lia)).
  assert (Hhi := H4 i j Hi Hj). rewrite Hz in Hlo, Hhi. split; lra.
Qed.

Lemma zero_distance_forces_zero_slack_witness :
  np.entry (squared_distances 2 unit_dist tt) 1 1 = 0%R /\
  two_points cp.id_delta 1 1 = 0%R /\ two_points cp.id_delta 1 1 = 0%R.
Proof.
  assert (Hz : np.entry (squared_distances 2 unit_dist tt) 1 1 = 0%R).
  { rewrite squared_distances_entry by lia. cbn. lra. }
  split; [exact Hz|].
  apply (zero_distance_forces_zero_slack 2 (squared_distances 2 unit_dist tt)
           (formulated_problem 2 (squared_distances 2 unit_dist tt))
           two_points 1 1).
  - lia.
  - exact unit_squares_shape.
  - apply formulate_closed_form; [lia|exact unit_squares_shape].
  - exact two_points_feasible.
  - lia.
  - lia.
  - exact Hz.
Defined.

(** X11.  The diagonal of the Gram matrix is anchored at vertex 0: for an
    oracle with zero diagonal, at every feasible point
    [G[i-1,i-1] = delta[0,i]], which is at least the squared distance from
    vertex 0 to vertex [i]. *)
Theorem gram_diagonal_is_slack_from_vertex_0 {Arg} (n : Z)
  (dist_func : Oracle Arg) (dist_arg : Arg) (p : cp.Problem)
  (rho : cp.Assignment) :
  (forall i, 1 <= i < n -> dist_func i i dist_arg = 0%R) ->
  formulate n (squared_distances n dist_func dist_arg) = Ok p ->
  cp.feasible rho p ->
  forall i, 1 <= i < n ->
    rho cp.id_G (i - 1) (i - 1) = rho cp.id_delta 0 i /\
    (dist_func 0%Z i dist_arg ^ 2 <= rho cp.id_G (i - 1)%Z (i - 1)%Z)%R.
Proof.
  intros Hdiag Hp Hfeas i Hi.
  rewrite formulate_closed_form in Hp
    by (try apply squared_distances_shape; lia).
  injection Hp as <-. apply feasible_iff in Hfeas.
  destruct Hfeas as [_ [_ [_ [H3 [H4 H5]]]]].
  assert (Hlo := H3 i i ltac:(lia) ltac:(lia)).
  assert (Hhi := H4 i i Hi Hi).
  assert (H0 := H3 0 i ltac:(lia) ltac:(lia)).
  assert (Hg := H5 i i Hi Hi).
  rewrite squared_distances_entry in Hlo, Hhi, H0 by lia.
  rewrite Hdiag in Hlo, Hhi by lia. simpl in Hlo, Hhi.
  split; lra.
Qed.

Lemma gram_diagonal_is_slack_from_vertex_0_witness :
  (forall i, 1 <= i < 2 -> unit_dist i i tt = 0%R) /\
  forall i, 1 <= i < 2 ->
    two_points cp.id_G (i - 1) (i - 1) = two_points cp.id_delta 0 i /\
    (unit_dist 0%Z i tt ^ 2 <= two_points cp.id_G (i - 1)%Z (i - 1)%Z)%R.
Proof.
  assert (Hdiag : forall i, 1 <= i < 2 -> unit_dist i i tt = 0%R).
  { intros i _. unfold unit_dist. now rewrite Z.eqb_refl. }
  split; [exact Hdiag|].
  apply (gram_diagonal_is_slack_from_vertex_0 2 unit_dist tt
           (formulated_problem 2 (squared_distances 2 unit_dist tt))).
  - exact Hdiag.
  - apply formulate_closed_form; [lia|exact unit_squares_shape].
  - exact two_points_feasible.
Defined.

(** X12.  When the call returns.  For [n >= 2] and a solver that follows
    cvxpy's convention on values, [optimize_sdp] returns a result exactly
    when the status is [optimal] or [optimal_inaccurate]; the result then
    carries the solver's own status, unchanged, in first place.  With every
    other status the call raises from the square root. *)
Theorem returns_exactly_with_a_solution {Arg} (backend : cp.Backend) (n : Z)
  (dist_func : Oracle Arg) (dist_arg : Arg) (verbose : bool) (w : World) :
  2 <= n ->
  cp.values_convention
    (backend (formulated_problem n (squared_distances n dist_func dist_arg))) ->
  let out :=
    backend (formulated_problem n (squared_distances n dist_func dist_arg)) in
  (cp.has_solution (cp.status out) = true ->
   exists D g dl,
     fst (optimize_sdp backend n dist_func dist_arg verbose w)
     = Ok [PyStatus (cp.status out); PyFloat D; PyArray g; PyArray dl]) /\
  (cp.has_solution (cp.status out) = false ->
   fst (optimize_sdp backend n dist_func dist_arg verbose w)
   = Raise TypeError_sqrt_of_None).
Proof.
  intros Hn Hconv out. fold out in Hconv.
  unfold cp.values_convention in Hconv.
  rewrite optimize_sdp_run by lia. cbv zeta. fold out. split; intros Hs.
  - rewrite Hs in Hconv. destruct Hconv as [H1 [H2 H3]].
    destruct (cp.value_D2 out) as [d2|]; [|congruence].
    destruct (cp.value_G out) as [g|]; [|congruence].
    destruct (cp.value_delta out) as [dl|]; [|congruence].
    simpl. eauto.
  - rewrite Hs in Hconv. destruct Hconv as [H1 _]. now rewrite H1.
Qed.

Lemma returns_exactly_with_a_solution_witness :
  2 <= 3 /\
  fst (optimize_sdp reports_infeasible 3 asym_dist tt false empty_world)
  = Raise TypeError_sqrt_of_None.
Proof.
  split; [lia|].
  apply (returns_exactly_with_a_solution reports_infeasible 3 asym_dist tt
           false empty_world).
  - lia.
  - unfold cp.values_convention, reports_infeasible. simpl. auto.
  - reflexivity.
Defined.

(** ** The problem of a proper distance is feasible *)

Lemma finite_upper_bound {A} (l : list A) (f : A -> R) :
  exists M, forall q, In q l -> (f q <= M)%R.
Proof.
  induction l as [|x l [M HM]].
  - exists 0%R. intros q [].
  - exists (Rmax (f x) M). intros q [<- | Hin].
    + apply Rmax_l.
    + apply Rle_trans with M; [now apply HM|apply Rmax_r].
Qed.

Lemma finite_positive_lower_bound {A} (l : list A) (f : A -> R) :
  (forall q, In q l -> (0 < f q)%R) ->
  exists m, (0 < m)%R /\ forall q, In q l -> (m <= f q)%R.
Proof.
  induction l as [|x l IH]; intros Hpos.
  - exists 1%R. split; [lra|]. intros q [].
  - destruct IH as [m [Hm Hlow]]; [intros; apply Hpos; now right|].
    exists (Rmin (f x) m). split.
    + apply Rmin_glb_lt; [apply Hpos; now left|exact Hm].
    + intros q [<- | Hin].
      * apply Rmin_l.
      * apply Rle_trans with m; [apply Rmin_r|now apply Hlow].
Qed.

(** X13.  For an oracle that behaves like a distance on the vertices
    [1 .. n-1] (zero from a vertex to itself, nonzero between distinct
    vertices), the problem the program builds has a feasible point, so
    infeasibility is not an answer a sound solver can give. *)
Theorem proper_distance_is_feasible {Arg} (n : Z) (dist_func : Oracle Arg)
  (dist_arg : Arg) (p : cp.Problem) :
  2 <= n ->
  formulate n (squared_distances n dist_func dist_arg) = Ok p ->
  (forall i, 1 <= i < n -> dist_func i i dist_arg = 0%R) ->
  (forall i j, 1 <= i < n -> 1 <= j < n -> i <> j ->
     dist_func i j dist_arg <> 0%R) ->
  exists rho, cp.feasible rho p.
Proof.
  intros Hn Hp Hdiag Hoff.
  rewrite formulate_closed_form in Hp
    by (try apply squared_distances_shape; lia).
  injection Hp as <-.
  set (sqf := fun q : Z * Z => (dist_func (fst q) (snd q) dist_arg ^ 2)%R).
  destruct (finite_upper_bound (all_pairs n) sqf) as [M HM].
  destruct (finite_positive_lower_bound
              (filter (fun q => negb (fst q =? snd q) && (1 <=? fst q)
                                && (1 <=? snd q))
                      (all_pairs n)) sqf) as [m [Hm Hlow]].
  { intros [i j] Hin. apply filter_In in Hin. destruct Hin as [Hin Hb].
    apply in_all_pairs in Hin. simpl in Hb.
    apply andb_prop in Hb. destruct Hb as [Hb Hj1].
    apply andb_prop in Hb. destruct Hb as [Hne Hi1].
    apply negb_true_iff in Hne. apply Z.eqb_neq in Hne.
    apply Z.leb_le in Hi1. apply Z.leb_le in Hj1.
    unfold sqf. simpl.
    assert (Hnz : dist_func i j dist_arg <> 0%R) by (apply Hoff; lia).
    pose proof (pow2_ge_0 (dist_func i j dist_arg)) as Hsq.
    destruct Hsq as [Hpos | Hz]; [exact Hpos|].
    exfalso. apply Hnz. symmetry in Hz. simpl in Hz.
    rewrite Rmult_1_r in Hz. apply Rmult_integral in Hz. tauto. }
  exists (simplex_point M (M / m)).
  apply simplex_point_feasible_in; try assumption.
  - intros i j Hi Hj. rewrite squared_distances_entry by lia.
    apply (HM (i, j)). now apply in_all_pairs.
  - intros i Hi. rewrite squared_distances_entry, Hdiag by lia.
    simpl. lra.
  - intros i j Hi Hj Hne. rewrite squared_distances_entry by lia.
    apply (Hlow (i, j)). apply filter_In. split.
    + apply in_all_pairs. lia.
    + simpl.
      replace (i =? j) with false by (symmetry; apply Z.eqb_neq; lia).
      replace (1 <=? i) with true by (symmetry; apply Z.leb_le; lia).
      replace (1 <=? j) with true by (symmetry; apply Z.leb_le; lia).
      reflexivity.
Qed.

Lemma proper_distance_is_feasible_witness :
  2 <= 3 /\
  exists rho,
    cp.feasible rho (formulated_problem 3 (squared_distances 3 unit_dist tt)).
Proof.
  split; [lia|].
  apply (proper_distance_is_feasible 3 unit_dist tt).
  - lia.
  - apply formulate_closed_form; [lia|exact triangle_squares_shape].
  - intros i _. unfold unit_dist. now rewrite Z.eqb_refl.
  - intros i j _ _ Hne. unfold unit_dist.
    destruct (Z.eqb_spec i j); [contradiction|lra].
Defined.

(** * Properties of [quicksort_lomuto] *)

Lemma range_nil (a b : Z) : b <= a -> range a b = [].
Proof.
  intros H. unfold range. now replace (Z.to_nat (b - a)) with 0%nat by lia.
Qed.

Lemma range_cons (a b : Z) : a < b -> range a b = a :: range (a + 1) b.
Proof.
  intros H. unfold range.
  replace (Z.to_nat (b - a)) with (S (Z.to_nat (b - (a + 1)))) by lia.
  cbn [seq map]. f_equal; [lia|].
  rewrite <- seq_shift, map_map. apply map_ext. intros k. lia.
Qed.

Lemma sorting_getitem_at (l : list Z) (i : Z) (k : nat) :
  i = Z.of_nat k -> (k < length l)%nat ->
  sorting.getitem l i = sorting.Done (nth k l 0).
Proof.
  intros -> Hk. unfold sorting.getitem. now rewrite norm_index_nat.
Qed.

Lemma sorting_setitem_at (l : list Z) (i : Z) (k : nat) (v : Z) :
  i = Z.of_nat k -> (k < length l)%nat ->
  sorting.setitem l i v = sorting.Done (np.update k v l).
Proof.
  intros -> Hk. unfold sorting.setitem. now rewrite norm_index_nat.
Qed.

(** Swapping a position with itself changes nothing. *)
Lemma swap_same (A B : list Z) (x : Z) (a : Z) :
  a = Z.of_nat (length A) ->
  sorting.swap (A ++ x :: B) a a = sorting.Done (A ++ x :: B).
Proof.
  intros Ha. unfold sorting.swap.
  rewrite (sorting_getitem_at _ a (length A))
    by (auto; rewrite length_app; simpl; lia).
  rewrite nth_middle. cbn [sorting.obind].
  rewrite (sorting_setitem_at _ a (length A))
    by (auto; rewrite length_app; simpl; lia).
  rewrite update_app. cbn [sorting.obind].
  rewrite (sorting_setitem_at _ a (length A))
    by (auto; rewrite length_app; simpl; lia).
  now rewrite update_app.
Qed.

(** Swapping two positions exchanges the two elements. *)
Lemma swap_apart (A B C : list Z) (u v : Z) (a b : Z) :
  b = Z.of_nat (length A) ->
  a = Z.of_nat (length A + 1 + length B) ->
  sorting.swap (A ++ u :: B ++ v :: C) a b
  = sorting.Done (A ++ v :: B ++ u :: C).
Proof.
  intros Hb Ha. unfold sorting.swap.
  rewrite (sorting_getitem_at _ b (length A))
    by (auto; rewrite length_app; simpl; lia).
  rewrite nth_middle. cbn [sorting.obind].
  assert (Hl : length (A ++ u :: B) = (length A + 1 + length B)%nat)
    by (rewrite length_app; simpl; lia).
  assert (Hre : A ++ u :: B ++ v :: C = (A ++ u :: B) ++ v :: C)
    by (now rewrite <- app_assoc).
  rewrite (sorting_getitem_at _ a (length (A ++ u :: B)))
    by (try lia; rewrite !length_app; simpl; rewrite length_app; simpl; lia).
  rewrite Hre at 1. rewrite nth_middle. cbn [sorting.obind].
  rewrite (sorting_setitem_at _ a (length (A ++ u :: B)))
    by (try lia; rewrite !length_app; simpl; rewrite length_app; simpl; lia).
  rewrite Hre at 1. rewrite update_app. cbn [sorting.obind].
  rewrite <- app_assoc. cbn [app].
  rewrite (sorting_setitem_at _ b (length A))
    by (auto; rewrite length_app; simpl; lia).
  now rewrite update_app.
Qed.

Ltac list_norm := repeat rewrite <- app_assoc; cbn [app]; try reflexivity.
Ltac len_norm := repeat rewrite length_app; cbn [length]; try lia.

Lemma Permutation_exchange (y x : Z) (large rest : list Z) :
  Permutation (y :: large ++ x :: rest) (x :: large ++ y :: rest).
Proof.
  etransitivity; [apply perm_skip; symmetry; apply Permutation_middle|].
  etransitivity; [apply perm_swap|].
  apply perm_skip. apply Permutation_middle.
Qed.

(** The partitioning loop: with the smaller elements found so far in
    [small] and the others in [large], the remaining ones are dealt out
    between the two. *)
Lemma lomuto_loop_spec (pivot : Z) (pre post : list Z) :
  forall rest small large l i hi s,
    Forall (fun x => x < pivot) small ->
    Forall (fun x => pivot <= x) large ->
    l = pre ++ small ++ large ++ rest ++ pivot :: post ->
    i = Z.of_nat (length pre + length small + length large) ->
    hi = i + Z.of_nat (length rest) ->
    s = Z.of_nat (length pre + length small) ->
    exists small' large',
      sorting.lomuto_loop (range i hi) pivot l s
      = sorting.Done (pre ++ small' ++ large' ++ pivot :: post,
                      Z.of_nat (length pre + length small')) /\
      Permutation (small ++ large ++ rest) (small' ++ large') /\
      Forall (fun x => x < pivot) small' /\
      Forall (fun x => pivot <= x) large'.
Proof.
  induction rest as [|x rest IH];
    intros small large l i hi s Hsmall Hlarge Hl Hi Hhi Hs.
  - exists small, large. rewrite range_nil by (simpl in Hhi; lia).
    subst l s. cbn [sorting.lomuto_loop app].
    rewrite app_nil_r. auto.
  - rewrite range_cons by (simpl in Hhi; lia).
    cbn [sorting.lomuto_loop].
    assert (Hget : sorting.getitem l i = sorting.Done x).
    { rewrite (sorting_getitem_at l i
                 (length (pre ++ small ++ large))).
      - subst l. f_equal.
        replace (pre ++ small ++ large ++ (x :: rest) ++ pivot :: post)
          with ((pre ++ small ++ large) ++ x :: rest ++ pivot :: post)
          by list_norm.
        apply nth_middle.
      - subst i. f_equal. len_norm.
      - subst l. len_norm. }
    rewrite Hget. cbn [sorting.obind].
    destruct (Z.ltb_spec x pivot) as [Hlt | Hge].
    + destruct large as [|y large].
      * assert (Hswap : sorting.swap l i s = sorting.Done l).
        { replace s with i by (subst i s; simpl; lia).
          subst l.
          replace (pre ++ small ++ [] ++ (x :: rest) ++ pivot :: post)
            with ((pre ++ small) ++ x :: rest ++ pivot :: post)
            by list_norm.
          apply swap_same. subst i. simpl. f_equal. len_norm. }
        rewrite Hswap. cbn [sorting.obind].
        destruct (IH (small ++ [x]) [] l (i + 1) hi (s + 1))
          as [small' [large' [Hrun [Hperm [Hs' Hl']]]]].
        -- apply Forall_app. split; [exact Hsmall|]. now constructor.
        -- constructor.
        -- subst l. list_norm.
        -- subst i. simpl. len_norm.
        -- subst hi. simpl. lia.
        -- subst s. len_norm.
        -- exists small', large'. split; [exact Hrun|].
           split; [|auto]. etransitivity; [|exact Hperm]. list_norm.
      * assert (Hswap : sorting.swap l i s
                        = sorting.Done
                            (pre ++ (small ++ [x]) ++ (large ++ [y])
                                 ++ rest ++ pivot :: post)).
        { subst l.
          replace (pre ++ small ++ (y :: large) ++ (x :: rest)
                       ++ pivot :: post)
            with ((pre ++ small) ++ y :: large ++ x :: rest ++ pivot :: post)
            by list_norm.
          replace (pre ++ (small ++ [x]) ++ (large ++ [y])
                       ++ rest ++ pivot :: post)
            with ((pre ++ small) ++ x :: large ++ y :: rest ++ pivot :: post)
            by list_norm.
          apply swap_apart.
          - subst s. f_equal. len_norm.
          - subst i. f_equal. len_norm. }
        rewrite Hswap. cbn [sorting.obind].
        inversion Hlarge as [|? ? Hy Hlarge']; subst.
        edestruct (IH (small ++ [x]) (large ++ [y]))
          as [small' [large' [Hrun [Hperm [Hs' Hl']]]]];
          [| |reflexivity|reflexivity|reflexivity|reflexivity|].
        -- apply Forall_app. split; [exact Hsmall|]. now constructor.
        -- apply Forall_app. split; [exact Hlarge'|]. now constructor.
        -- exists small', large'. split.
           ++ rewrite <- Hrun. f_equal.
              ** f_equal; len_norm.
              ** len_norm.
           ++ split; [|auto]. etransitivity; [|exact Hperm].
              list_norm. apply Permutation_app_head.
              apply Permutation_exchange.
    + assert (Hxge : pivot <= x) by lia.
      edestruct (IH small (large ++ [x]))
        as [small' [large' [Hrun [Hperm [Hs' Hl']]]]];
        [exact Hsmall| |reflexivity|reflexivity|reflexivity|reflexivity|].
      * apply Forall_app. split; [exact Hlarge|]. now constructor.
      * exists small', large'. split.
        -- rewrite <- Hrun. subst. f_equal.
           ++ f_equal; len_norm.
           ++ list_norm.
        -- split; [|auto]. etransitivity; [|exact Hperm]. list_norm.
Qed.

Lemma sorted_around_pivot (A B : list Z) (p : Z) :
  Sorted Z.le A -> Sorted Z.le B ->
  Forall (fun x => x < p) A -> Forall (fun x => p <= x) B ->
  Sorted Z.le (A ++ p :: B).
Proof.
  intros HA HB HltA HgeB.
  apply StronglySorted_Sorted.
  apply Sorted_StronglySorted in HA; [|intros x y z; apply Z.le_trans].
  apply Sorted_StronglySorted in HB; [|intros x y z; apply Z.le_trans].
  induction A as [|a A IH]; cbn [app].
  - constructor; [exact HB|]. exact HgeB.
  - inversion HA as [|? ? HA' Ha]; subst.
    inversion HltA as [|? ? Hap HltA']; subst.
    constructor; [now apply IH|].
    apply Forall_app. split; [exact Ha|].
    constructor; [lia|].
    eapply Forall_impl; [|exact HgeB]. intros b Hb. simpl in Hb. lia.
Qed.

Lemma short_list_sorted (l : list Z) : (length l <= 1)%nat -> Sorted Z.le l.
Proof.
  destruct l as [|x [|y l]]; simpl; intros H; try lia; repeat constructor.
Qed.

(** After the loop the pivot is exchanged with the first of the larger
    elements. *)
Lemma pivot_swap_spec (pivot : Z) (pre post small large : list Z) (a b : Z) :
  a = Z.of_nat (length pre + length small + length large) ->
  b = Z.of_nat (length pre + length small) ->
  exists large',
    sorting.swap (pre ++ small ++ large ++ pivot :: post) a b
    = sorting.Done (pre ++ small ++ pivot :: large' ++ post) /\
    Permutation large large'.
Proof.
  intros Ha Hb. destruct large as [|y large].
  - exists []. split; [|constructor].
    replace a with b by (subst; simpl; lia). cbn [app].
    replace (pre ++ small ++ pivot :: post)
      with ((pre ++ small) ++ pivot :: post) by list_norm.
    apply swap_same. subst b. f_equal. len_norm.
  - exists (large ++ [y]). split; [|apply Permutation_cons_append].
    replace (pre ++ small ++ (y :: large) ++ pivot :: post)
      with ((pre ++ small) ++ y :: large ++ pivot :: post) by list_norm.
    replace (pre ++ small ++ pivot :: (large ++ [y]) ++ post)
      with ((pre ++ small) ++ pivot :: large ++ y :: post) by list_norm.
    apply swap_apart.
    + subst b. f_equal. len_norm.
    + subst a. f_equal. len_norm.
Qed.

Lemma assemble_sorted (body small large large' ss ls : list Z) (pivot : Z) :
  Permutation body (small ++ large) ->
  Permutation large large' ->
  Permutation small ss -> Permutation large' ls ->
  Sorted Z.le ss -> Sorted Z.le ls ->
  Forall (fun x => x < pivot) small ->
  Forall (fun x => pivot <= x) large ->
  Permutation (body ++ [pivot]) (ss ++ pivot :: ls) /\
  Sorted Z.le (ss ++ pivot :: ls).
Proof.
  intros Hb Hl Hs Hls Hss Hsl Hsmall Hlarge. split.
  - transitivity (pivot :: body);
      [symmetry; apply Permutation_cons_append|].
    transitivity (pivot :: ss ++ ls); [|apply Permutation_middle].
    apply perm_skip. rewrite Hb, Hl, Hs, Hls. reflexivity.
  - apply sorted_around_pivot; try assumption.
    + eapply Permutation_Forall; [exact Hs|exact Hsmall].
    + eapply Permutation_Forall; [|exact Hlarge]. now rewrite Hl.
Qed.

(** Sorting the segment [seg] of [pre ++ seg ++ post]: with fuel for the
    length of the segment the call returns, the segment comes back sorted
    and permuted, and the rest of the list is as it was. *)
Lemma quicksort_lomuto_segment :
  forall fuel seg pre post l lo hi,
    seg <> [] -> (length seg <= fuel)%nat ->
    l = pre ++ seg ++ post ->
    lo = Z.of_nat (length pre) ->
    hi = Z.of_nat (length pre + length seg) - 1 ->
    exists seg',
      sorting.quicksort_lomuto fuel l (Some lo) (Some hi)
      = sorting.Done (pre ++ seg' ++ post) /\
      Permutation seg seg' /\ Sorted Z.le seg'.
Proof.
  induction fuel as [|fuel IH];
    intros seg pre post l lo hi Hne Hfuel Hl Hlo Hhi.
  - destruct seg; [congruence|simpl in Hfuel; lia].
  - destruct (exists_last Hne) as [body [pivot Hseg]]. subst seg.
    rewrite length_app in Hfuel, Hhi. cbn [length] in Hfuel, Hhi.
    cbn [sorting.quicksort_lomuto].
    assert (Hget : sorting.getitem l hi = sorting.Done pivot).
    { rewrite (sorting_getitem_at l hi (length (pre ++ body))).
      - subst l. f_equal.
        replace (pre ++ (body ++ [pivot]) ++ post)
          with ((pre ++ body) ++ pivot :: post) by list_norm.
        apply nth_middle.
      - subst hi. len_norm.
      - subst l. len_norm. }
    rewrite Hget. cbn [sorting.obind].
    destruct (lomuto_loop_spec pivot pre post body [] [] l lo hi lo)
      as [small [large [Hrun [Hperm [Hsmall Hlarge]]]]];
      [constructor|constructor|subst l; list_norm
      |subst lo; f_equal; cbn [length]; lia|subst lo hi; lia
      |subst lo; f_equal; cbn [length]; lia|].
    cbn [app] in Hperm.
    rewrite Hrun. cbn [sorting.obind].
    pose proof (Permutation_length Hperm) as Hlen. rewrite length_app in Hlen.
    destruct (pivot_swap_spec pivot pre post small large hi
                (Z.of_nat (length pre + length small)))
      as [large' [Hswap Hperm']]; [subst hi; lia|reflexivity|].
    rewrite Hswap. cbn [sorting.obind].
    pose proof (Permutation_length Hperm') as Hlen'.
    set (swap_idx := Z.of_nat (length pre + length small)).
    assert (Hc1 : (lo <? swap_idx - 1) = (2 <=? length small)%nat).
    { subst lo swap_idx.
      destruct (Nat.leb_spec 2 (length small));
        [apply Z.ltb_lt|apply Z.ltb_ge]; lia. }
    assert (Hc2 : (swap_idx + 1 <? hi) = (2 <=? length large')%nat).
    { subst hi swap_idx.
      destruct (Nat.leb_spec 2 (length large'));
        [apply Z.ltb_lt|apply Z.ltb_ge]; lia. }
    assert (Hc3 : (hi <=? swap_idx + 1) = negb (2 <=? length large')%nat).
    { subst hi swap_idx.
      destruct (Nat.leb_spec 2 (length large')); cbn [negb];
        [apply Z.leb_gt|apply Z.leb_le]; lia. }
    assert (Hc4 : (swap_idx - 1 <=? lo) = negb (2 <=? length small)%nat).
    { subst lo swap_idx.
      destruct (Nat.leb_spec 2 (length small)); cbn [negb];
        [apply Z.leb_gt|apply Z.leb_le]; lia. }
    rewrite Hc1, Hc2, Hc3, Hc4. clear Hc1 Hc2 Hc3 Hc4.
    assert (Hleft : forall post',
              (2 <= length small)%nat ->
              exists ss,
                sorting.quicksort_lomuto fuel (pre ++ small ++ post')
                  (Some lo) (Some (swap_idx - 1))
                = sorting.Done (pre ++ ss ++ post') /\
                Permutation small ss /\ Sorted Z.le ss).
    { intros post' H2.
      apply (IH small pre post'); auto.
      - intros ->. simpl in H2. lia.
      - lia. }
    assert (Hright : forall pre',
              length pre' = (length pre + length small + 1)%nat ->
              (2 <= length large')%nat ->
              exists ls,
                sorting.quicksort_lomuto fuel (pre' ++ large' ++ post)
                  (Some (swap_idx + 1)) (Some hi)
                = sorting.Done (pre' ++ ls ++ post) /\
                Permutation large' ls /\ Sorted Z.le ls).
    { intros pre' Hpre' H2.
      apply (IH large' pre' post); auto.
      - intros E. rewrite E in H2. simpl in H2. lia.
      - lia.
      - subst swap_idx. lia.
      - subst hi. lia. }
    destruct (Nat.leb_spec 2 (length small)) as [Hs2 | Hs1];
      destruct (Nat.leb_spec 2 (length large')) as [Hl2 | Hl1];
      cbn [andb negb].
    + destruct (Hleft (pivot :: large' ++ post) Hs2)
        as [ss [Hrunl [Hpl Hsl]]].
      rewrite Hrunl. cbn [sorting.obind].
      destruct (Hright (pre ++ ss ++ [pivot])) as [ls [Hrunr [Hpr Hsr]]];
        [len_norm; rewrite <- (Permutation_length Hpl); lia|exact Hl2|].
      replace (pre ++ ss ++ pivot :: large' ++ post)
        with ((pre ++ ss ++ [pivot]) ++ large' ++ post) by list_norm.
      rewrite Hrunr. exists (ss ++ pivot :: ls).
      split; [list_norm|].
      now apply (assemble_sorted body small large large').
    + destruct (Hleft (pivot :: large' ++ post) Hs2)
        as [ss [Hrunl [Hpl Hsl]]].
      rewrite Hrunl. exists (ss ++ pivot :: large').
      split; [list_norm|].
      apply (assemble_sorted body small large large'); auto.
      apply short_list_sorted. lia.
    + destruct (Hright (pre ++ small ++ [pivot])) as [ls [Hrunr [Hpr Hsr]]];
        [len_norm|exact Hl2|].
      replace (pre ++ small ++ pivot :: large' ++ post)
        with ((pre ++ small ++ [pivot]) ++ large' ++ post) by list_norm.
      rewrite Hrunr. exists (small ++ pivot :: ls).
      split; [list_norm|].
      apply (assemble_sorted body small large large'); auto.
      apply short_list_sorted. lia.
    + exists (small ++ pivot :: large').
      split; [list_norm|].
      apply (assemble_sorted body small large large'); auto;
        apply short_list_sorted; lia.
Qed.

(** X14.  [quicksort_lomuto(elements)] on a non-empty list, with fuel for
    its length, returns the list sorted: a permutation of the input in
    nondecreasing order. *)
Theorem quicksort_lomuto_sorts (fuel : nat) (elements : list Z) :
  elements <> [] -> (length elements <= fuel)%nat ->
  exists sorted,
    sorting.quicksort_lomuto fuel elements None None = sorting.Done sorted /\
    Permutation elements sorted /\ Sorted Z.le sorted.
Proof.
  intros Hne Hfuel.
  destruct (quicksort_lomuto_segment fuel elements [] [] elements 0
              (Z.of_nat (length elements) - 1))
    as [sorted [Hrun [Hperm Hsorted]]]; auto.
  - now rewrite app_nil_r.
  - exists sorted. rewrite app_nil_r in Hrun. cbn [app] in Hrun.
    split; [|auto]. rewrite <- Hrun.
    destruct fuel; reflexivity.
Qed.

Lemma quicksort_lomuto_sorts_witness :
  [3; 1; 2] <> [] /\
  exists sorted,
    sorting.quicksort_lomuto 3 [3; 1; 2] None None = sorting.Done sorted /\
    Permutation [3; 1; 2] sorted /\ Sorted Z.le sorted.
Proof.
  split; [discriminate|].
  apply (quicksort_lomuto_sorts 3 [3; 1; 2]); [discriminate|simpl; lia].
Defined.

(** X15.  Called on the range [[low_idx, high_idx]] holding the segment
    [seg] of [pre ++ seg ++ post], [quicksort_lomuto] sorts the segment and
    leaves the values before and after it untouched. *)
Theorem quicksort_lomuto_sorts_only_the_range
  (fuel : nat) (pre seg post : list Z) :
  seg <> [] -> (length seg <= fuel)%nat ->
  exists seg',
    sorting.quicksort_lomuto fuel (pre ++ seg ++ post)
      (Some (Z.of_nat (length pre)))
      (Some (Z.of_nat (length pre + length seg) - 1))
    = sorting.Done (pre ++ seg' ++ post) /\
    Permutation seg seg' /\ Sorted Z.le seg'.
Proof.
  intros Hne Hfuel.
  now apply (quicksort_lomuto_segment fuel seg pre post).
Qed.

Lemma quicksort_lomuto_sorts_only_the_range_witness :
  [5; 4] <> [] /\
  exists seg',
    sorting.quicksort_lomuto 2 ([9; 8] ++ [5; 4] ++ [1])
      (Some (Z.of_nat (length [9; 8])))
      (Some (Z.of_nat (length [9; 8] + length [5; 4]) - 1))
    = sorting.Done ([9; 8] ++ seg' ++ [1]) /\
    Permutation [5; 4] seg' /\ Sorted Z.le seg'.
Proof.
  split; [discriminate|].
  apply (quicksort_lomuto_sorts_only_the_range 2 [9; 8] [5; 4] [1]);
    [discriminate|simpl; lia].
Defined.

(** X16.  An index [high_idx] outside the list makes [quicksort_lomuto]
    raise the index error of the pivot read on line 27, before anything is
    moved; in particular the default call on the empty list raises, its
    [high_idx] being [-1]. *)
Theorem quicksort_lomuto_high_out_of_range
  (fuel : nat) (elements : list Z) (low_idx : option Z) (high_idx : Z) :
  Z.of_nat (length elements) <= high_idx \/
  high_idx < - Z.of_nat (length elements) ->
  sorting.quicksort_lomuto (S fuel) elements low_idx (Some high_idx)
  = sorting.Fail (sorting.ListIndexError high_idx) /\
  sorting.quicksort_lomuto (S fuel) [] None None
  = sorting.Fail (sorting.ListIndexError (-1)).
Proof.
  intros Hout. split; [|reflexivity].
  cbn [sorting.quicksort_lomuto]. unfold sorting.getitem, norm_index.
  replace ((0 <=? high_idx) && (high_idx <? Z.of_nat (length elements)))
    with false.
  - replace ((- Z.of_nat (length elements) <=? high_idx) && (high_idx <? 0))
      with false; [reflexivity|].
    symmetry. apply andb_false_iff.
    destruct Hout; [right; apply Z.ltb_ge|left; apply Z.leb_gt]; lia.
  - symmetry. apply andb_false_iff.
    destruct Hout; [right; apply Z.ltb_ge|left; apply Z.leb_gt]; lia.
Qed.

Lemma quicksort_lomuto_high_out_of_range_witness :
  (Z.of_nat (length [1; 2]) <= 2 \/ 2 < - Z.of_nat (length [1; 2])) /\
  sorting.quicksort_lomuto 1 [1; 2] (Some 0) (Some 2)
  = sorting.Fail (sorting.ListIndexError 2) /\
  sorting.quicksort_lomuto 1 [] None None
  = sorting.Fail (sorting.ListIndexError (-1)).
Proof.
  assert (H : Z.of_nat (length [1; 2]) <= 2 \/ 2 < - Z.of_nat (length [1; 2]))
    by (left; simpl; lia).
  split; [exact H|].
  apply (quicksort_lomuto_high_out_of_range 0 [1; 2] (Some 0) 2 H).
Defined.

(** * Properties of [partition_hoare] and [quicksort_hoare] *)

Lemma nth_update_other {A} (k j : nat) (v d : A) (l : list A) :
  k <> j -> nth j (np.update k v l) d = nth j l d.
Proof.
  revert k j. induction l as [|x l IH]; intros [|k] [|j] H; simpl;
    try congruence; auto.
Qed.

Lemma update_in_segment {A} (pre seg post : list A) (k : nat) (v : A) :
  (k < length seg)%nat ->
  np.update (length pre + k) v (pre ++ seg ++ post)
  = pre ++ np.update k v seg ++ post.
Proof.
  intros Hk. induction pre as [|x pre IH]; cbn [length app Nat.add].
  - revert k Hk. induction seg as [|y seg IHs]; intros [|k] Hk;
      simpl in *; try lia; auto.
    f_equal. apply IHs. lia.
  - simpl. now rewrite IH.
Qed.

Lemma nth_in_segment {A} (pre seg post : list A) (k : nat) (d : A) :
  (k < length seg)%nat ->
  nth (length pre + k) (pre ++ seg ++ post) d = nth k seg d.
Proof.
  intros Hk. rewrite app_nth2_plus. now apply app_nth1.
Qed.

Lemma nth_exchanged (l : list Z) (a b k : nat) :
  (a < length l)%nat -> (b < length l)%nat ->
  nth k (exchanged l a b) 0
  = if (k =? b)%nat then nth a l 0
    else if (k =? a)%nat then nth b l 0 else nth k l 0.
Proof.
  intros Ha Hb. unfold exchanged.
  destruct (Nat.eqb_spec k b) as [-> | Hkb].
  - apply nth_update_eq. now rewrite update_length.
  - rewrite nth_update_other by congruence.
    destruct (Nat.eqb_spec k a) as [-> | Hka].
    + now apply nth_update_eq.
    + rewrite nth_update_other by congruence. reflexivity.
Qed.

Lemma length_exchanged (l : list Z) (a b : nat) :
  length (exchanged l a b) = length l.
Proof. unfold exchanged. now rewrite !update_length. Qed.

Lemma exchanged_apart (A B C : list Z) (u v : Z) :
  exchanged (A ++ u :: B ++ v :: C) (length A) (length A + 1 + length B)
  = A ++ v :: B ++ u :: C.
Proof.
  unfold exchanged. rewrite nth_middle.
  replace (A ++ u :: B ++ v :: C) with ((A ++ u :: B) ++ v :: C) by list_norm.
  replace (length A + 1 + length B)%nat with (length (A ++ u :: B))
    by len_norm.
  rewrite nth_middle. rewrite <- app_assoc. cbn [app].
  rewrite update_app.
  replace (A ++ v :: B ++ v :: C) with ((A ++ v :: B) ++ v :: C) by list_norm.
  replace (length (A ++ u :: B)) with (length (A ++ v :: B)) by len_norm.
  rewrite update_app. list_norm.
Qed.

Lemma exchanged_Permutation (l : list Z) (a b : nat) :
  (a < b)%nat -> (b < length l)%nat ->
  Permutation l (exchanged l a b).
Proof.
  intros Hab Hb.
  destruct (nth_split l 0 (n := a)) as [A [l2 [Hl HA]]]; [lia|].
  assert (Hb2 : (b - a - 1 < length l2)%nat).
  { rewrite Hl, length_app in Hb. simpl in Hb. lia. }
  destruct (nth_split l2 0 Hb2) as [B [C [Hl2 HB]]].
  set (u := nth a l 0) in *. set (v := nth (b - a - 1) l2 0) in *.
  rewrite Hl2 in Hl. rewrite Hl.
  replace a with (length A) by lia.
  replace b with (length A + 1 + length B)%nat by lia.
  rewrite exchanged_apart.
  apply Permutation_app_head. apply Permutation_exchange.
Qed.

Lemma swap_in_segment (pre seg post : list Z) (a b : nat) (ia ib : Z) :
  (a < length seg)%nat -> (b < length seg)%nat ->
  ia = Z.of_nat (length pre + a) -> ib = Z.of_nat (length pre + b) ->
  sorting.swap (pre ++ seg ++ post) ia ib
  = sorting.Done (pre ++ exchanged seg a b ++ post).
Proof.
  intros Ha Hb Hia Hib. unfold sorting.swap.
  rewrite (sorting_getitem_at _ ib (length pre + b)) by (auto; len_norm).
  rewrite nth_in_segment by exact Hb. cbn [sorting.obind].
  rewrite (sorting_getitem_at _ ia (length pre + a)) by (auto; len_norm).
  rewrite nth_in_segment by exact Ha. cbn [sorting.obind].
  rewrite (sorting_setitem_at _ ia (length pre + a)) by (auto; len_norm).
  rewrite update_in_segment by exact Ha. cbn [sorting.obind].
  rewrite (sorting_setitem_at _ ib (length pre + b))
    by (auto; len_norm; rewrite update_length; lia).
  rewrite update_in_segment by (now rewrite update_length).
  reflexivity.
Qed.

Section HoareScans.

Variable pivot : Z.
Variables pre seg post : list Z.

(** The scan to the left stops at the first value that is not above the
    pivot, and such a value is known to lie at [s]. *)
Lemma scan_right_spec :
  forall fuel r s ir,
    (s <= r)%nat -> (r < length seg)%nat ->
    nth s seg 0 <= pivot ->
    (r - s < fuel)%nat ->
    ir = Z.of_nat (length pre + r) ->
    exists r',
      sorting.scan_right fuel (pre ++ seg ++ post) pivot ir
      = sorting.Done (Z.of_nat (length pre + r')) /\
      (s <= r' <= r)%nat /\
      nth r' seg 0 <= pivot /\
      forall k, (r' < k <= r)%nat -> pivot < nth k seg 0.
Proof.
  induction fuel as [|fuel IH]; intros r s ir Hsr Hr Hs Hfuel Hir; [lia|].
  cbn [sorting.scan_right].
  rewrite (sorting_getitem_at _ ir (length pre + r)) by (auto; len_norm).
  rewrite nth_in_segment by exact Hr. cbn [sorting.obind].
  destruct (Z.ltb_spec pivot (nth r seg 0)) as [Hgt | Hle].
  - assert (Hne : s <> r) by (intros ->; lia).
    destruct (IH (r - 1)%nat s (ir - 1)) as [r' [Hrun [Hb [Hv Hall]]]];
      try lia.
    exists r'. split; [exact Hrun|]. split; [lia|]. split; [exact Hv|].
    intros k Hk. destruct (Nat.eq_dec k r) as [-> | Hkr]; [exact Hgt|].
    apply Hall. lia.
  - exists r. subst ir. split; [reflexivity|]. split; [lia|].
    split; [exact Hle|]. intros k Hk. lia.
Qed.

(** The scan to the right stops at the first value that is not below the
    pivot, and such a value is known to lie at [t]. *)
Lemma scan_left_spec :
  forall fuel l t il,
    (l <= t)%nat -> (t < length seg)%nat ->
    pivot <= nth t seg 0 ->
    (t - l < fuel)%nat ->
    il = Z.of_nat (length pre + l) ->
    exists l',
      sorting.scan_left fuel (pre ++ seg ++ post) pivot il
      = sorting.Done (Z.of_nat (length pre + l')) /\
      (l <= l' <= t)%nat /\
      pivot <= nth l' seg 0 /\
      forall k, (l <= k < l')%nat -> nth k seg 0 < pivot.
Proof.
  induction fuel as [|fuel IH]; intros l t il Hlt Ht Hpt Hfuel Hil; [lia|].
  cbn [sorting.scan_left].
  rewrite (sorting_getitem_at _ il (length pre + l)) by (auto; len_norm).
  rewrite nth_in_segment by lia. cbn [sorting.obind].
  destruct (Z.ltb_spec (nth l seg 0) pivot) as [Hlow | Hge].
  - assert (Hne : l <> t) by (intros ->; lia).
    destruct (IH (l + 1)%nat t (il + 1)) as [l' [Hrun [Hb [Hv Hall]]]];
      try lia.
    exists l'. split; [exact Hrun|]. split; [lia|]. split; [exact Hv|].
    intros k Hk. destruct (Nat.eq_dec k l) as [-> | Hkl]; [exact Hlow|].
    apply Hall. lia.
  - exists l. subst il. split; [reflexivity|]. split; [lia|].
    split; [exact Hge|]. intros k Hk. lia.
Qed.

End HoareScans.

(** The outer loop of the partition.  Entering an iteration with the next
    positions to look at [l1] and [r1]: everything left of [l1] is at most
    the pivot, everything right of [r1] at least the pivot, and each scan
    has a value that stops it.  The loop returns a position [m], not the
    last one, that splits the segment. *)
Lemma hoare_while_spec (pivot : Z) (pre post : list Z) (n : nat) :
  (2 <= n)%nat ->
  forall fuel scan_fuel seg l1 r1 il ir,
    length seg = n ->
    (l1 <= r1 + 1)%nat -> (r1 < n)%nat ->
    (forall k, (k < l1)%nat -> nth k seg 0 <= pivot) ->
    (forall k, (r1 < k < n)%nat -> pivot <= nth k seg 0) ->
    (exists s, (s <= r1)%nat /\ nth s seg 0 <= pivot) ->
    (exists t, (l1 <= t < n)%nat /\ pivot <= nth t seg 0) ->
    ((r1 + 2 <= n)%nat \/ (l1 = 0%nat /\ nth 0 seg 0 = pivot)) ->
    (r1 + 1 <= l1 + fuel)%nat -> (1 <= fuel)%nat ->
    (n <= scan_fuel)%nat ->
    il = Z.of_nat (length pre + l1) - 1 ->
    ir = Z.of_nat (length pre + r1) + 1 ->
    exists seg' m,
      sorting.hoare_while fuel scan_fuel (pre ++ seg ++ post) pivot il ir
      = sorting.Done (pre ++ seg' ++ post, Some (Z.of_nat (length pre + m))) /\
      Permutation seg seg' /\
      (m + 1 < n)%nat /\
      (forall k, (k <= m)%nat -> nth k seg' 0 <= pivot) /\
      (forall k, (m < k < n)%nat -> pivot <= nth k seg' 0).
Proof.
  intros Hn. induction fuel as [|fuel IH];
    intros scan_fuel seg l1 r1 il ir Hlen Hlr Hr1 Ha Hb [s [Hs Hsv]]
           [t [Ht Htv]] Hf Hfuel H1 Hscan Hil Hir; [lia|].
  cbn [sorting.hoare_while].
  replace (il =? ir) with false by (symmetry; apply Z.eqb_neq; lia).
  destruct (scan_right_spec pivot pre seg post scan_fuel r1 s (ir - 1))
    as [r' [Hrunr [Hbr [Hrv Hallr]]]]; try lia.
  rewrite Hrunr. cbn [sorting.obind].
  destruct (scan_left_spec pivot pre seg post scan_fuel l1 t (il + 1))
    as [l' [Hrunl [Hbl [Hlv Halll]]]]; try lia.
  rewrite Hrunl. cbn [sorting.obind].
  destruct (Nat.le_gt_cases r' l') as [Hret | Hgo].
  - replace (Z.of_nat (length pre + r') <=? Z.of_nat (length pre + l'))
      with true by (symmetry; apply Z.leb_le; lia).
    exists seg, r'. split; [reflexivity|]. split; [reflexivity|].
    split; [|split].
    + destruct Hf as [Hf | [Hl0 Hp0]]; [lia|].
      assert (l' = 0%nat).
      { destruct l' as [|l']; [reflexivity|].
        specialize (Halll 0%nat ltac:(lia)). lia. }
      lia.
    + intros k Hk. destruct (Nat.lt_ge_cases k l1) as [Hk1 | Hk1];
        [now apply Ha|].
      destruct (Nat.lt_ge_cases k l') as [Hk2 | Hk2].
      * specialize (Halll k ltac:(lia)). lia.
      * replace k with r' by lia. exact Hrv.
    + intros k Hk. destruct (Nat.le_gt_cases k r1) as [Hk1 | Hk1].
      * specialize (Hallr k ltac:(lia)). lia.
      * apply Hb. lia.
  - replace (Z.of_nat (length pre + r') <=? Z.of_nat (length pre + l'))
      with false by (symmetry; apply Z.leb_gt; lia).
    rewrite (swap_in_segment pre seg post l' r') by (auto; lia).
    cbn [sorting.obind].
    destruct (IH scan_fuel (exchanged seg l' r') (l' + 1)%nat (r' - 1)%nat
                (Z.of_nat (length pre + l')) (Z.of_nat (length pre + r')))
      as [seg' [m [Hrun [Hperm [Hm [Hlow Hhigh]]]]]]; try lia.
    + now rewrite length_exchanged.
    + intros k Hk. rewrite nth_exchanged by lia.
      destruct (Nat.eqb_spec k r'); [lia|].
      destruct (Nat.eqb_spec k l'); [exact Hrv|].
      destruct (Nat.lt_ge_cases k l1) as [Hk1 | Hk1]; [now apply Ha|].
      specialize (Halll k ltac:(lia)). lia.
    + intros k Hk. rewrite nth_exchanged by lia.
      destruct (Nat.eqb_spec k r'); [exact Hlv|].
      destruct (Nat.eqb_spec k l'); [lia|].
      destruct (Nat.le_gt_cases k r1) as [Hk1 | Hk1].
      * specialize (Hallr k ltac:(lia)). lia.
      * apply Hb. lia.
    + exists l'. split; [lia|]. rewrite nth_exchanged by lia.
      destruct (Nat.eqb_spec l' r'); [lia|].
      now rewrite Nat.eqb_refl.
    + exists r'. split; [lia|]. rewrite nth_exchanged by lia.
      now rewrite Nat.eqb_refl.
    + exists seg', m. split; [exact Hrun|]. split; [|auto].
      etransitivity; [|exact Hperm]. apply exchanged_Permutation; lia.
Qed.

(** The partition of a segment of at least two values: the segment is
    split into two parts, neither empty, the first with values at most the
    pivot and the second with values at least the pivot; the value returned
    is the last position of the first part. *)
Lemma partition_hoare_spec (fuel : nat) (pre seg post : list Z) :
  (2 <= length seg)%nat -> (length seg <= fuel)%nat ->
  exists A B,
    sorting.partition_hoare fuel (pre ++ seg ++ post)
      (Some (Z.of_nat (length pre)))
      (Some (Z.of_nat (length pre + length seg) - 1))
    = sorting.Done (pre ++ A ++ B ++ post,
                    Some (Z.of_nat (length pre + length A) - 1)) /\
    A <> [] /\ B <> [] /\
    Permutation seg (A ++ B) /\
    Forall (fun x => x <= nth 0 seg 0) A /\
    Forall (fun x => nth 0 seg 0 <= x) B.
Proof.
  intros Hn Hfuel. unfold sorting.partition_hoare.
  rewrite (sorting_getitem_at _ _ (length pre + 0))
    by (try (f_equal; lia); len_norm).
  rewrite nth_in_segment by lia. cbn [sorting.obind].
  set (pivot := nth 0 seg 0).
  destruct (hoare_while_spec pivot pre post (length seg) Hn fuel fuel seg
              0%nat (length seg - 1)%nat
              (Z.of_nat (length pre) - 1)
              (Z.of_nat (length pre + length seg) - 1 + 1))
    as [seg' [m [Hrun [Hperm [Hm [Hlow Hhigh]]]]]]; try lia.
  - exists 0%nat. split; [lia|]. subst pivot. lia.
  - exists 0%nat. split; [lia|]. subst pivot. lia.
  - pose proof (Permutation_length Hperm) as Hlen.
    exists (firstn (m + 1) seg'), (skipn (m + 1) seg').
    assert (HlenA : length (firstn (m + 1) seg') = (m + 1)%nat)
      by (rewrite length_firstn; lia).
    split; [|split; [|split; [|split; [|split]]]].
    + rewrite Hrun. rewrite <- (firstn_skipn (m + 1) seg') at 1.
      rewrite <- app_assoc. do 3 f_equal. lia.
    + intros E. rewrite E in HlenA. simpl in HlenA. lia.
    + intros E. assert (Hs : length (skipn (m + 1) seg') = 0%nat)
        by (now rewrite E).
      rewrite length_skipn in Hs. lia.
    + now rewrite firstn_skipn.
    + apply Forall_forall. intros x Hx.
      destruct (In_nth _ _ 0 Hx) as [k [Hk Hnth]].
      rewrite nth_firstn in Hnth. rewrite HlenA in Hk.
      replace (k <? m + 1)%nat with true in Hnth
        by (symmetry; apply Nat.ltb_lt; lia).
      rewrite <- Hnth. apply Hlow. lia.
    + apply Forall_forall. intros x Hx.
      destruct (In_nth _ _ 0 Hx) as [k [Hk Hnth]].
      rewrite nth_skipn in Hnth. rewrite length_skipn in Hk.
      rewrite <- Hnth. apply Hhigh. lia.
Qed.

Lemma sorted_two_parts (A B : list Z) (p : Z) :
  Sorted Z.le A -> Sorted Z.le B ->
  Forall (fun x => x <= p) A -> Forall (fun x => p <= x) B ->
  Sorted Z.le (A ++ B).
Proof.
  intros HA HB HleA HgeB.
  apply StronglySorted_Sorted.
  apply Sorted_StronglySorted in HA; [|intros x y z; apply Z.le_trans].
  apply Sorted_StronglySorted in HB; [|intros x y z; apply Z.le_trans].
  induction A as [|a A IH]; cbn [app]; [exact HB|].
  inversion HA as [|? ? HA' Ha]; subst.
  inversion HleA as [|? ? Hap HleA']; subst.
  constructor; [now apply IH|].
  apply Forall_app. split; [exact Ha|].
  eapply Forall_impl; [|exact HgeB]. intros b Hb. simpl in Hb. lia.
Qed.

Lemma assemble_two_parts (seg A B A' B' : list Z) (p : Z) :
  Permutation seg (A ++ B) ->
  Permutation A A' -> Permutation B B' ->
  Sorted Z.le A' -> Sorted Z.le B' ->
  Forall (fun x => x <= p) A -> Forall (fun x => p <= x) B ->
  Permutation seg (A' ++ B') /\ Sorted Z.le (A' ++ B').
Proof.
  intros Hseg HA HB HsA HsB HleA HgeB. split.
  - rewrite Hseg. now apply Permutation_app.
  - apply (sorted_two_parts A' B' p); try assumption.
    + eapply Permutation_Forall; [exact HA|exact HleA].
    + eapply Permutation_Forall; [exact HB|exact HgeB].
Qed.

(** Sorting the segment [seg] of [pre ++ seg ++ post] with
    [quicksort_hoare]: with more fuel than the segment is long the call
    returns, the segment comes back sorted and permuted, and the rest of
    the list is as it was. *)
Lemma quicksort_hoare_segment :
  forall fuel seg pre post l lo hi,
    (length seg < fuel)%nat ->
    l = pre ++ seg ++ post ->
    lo = Z.of_nat (length pre) ->
    hi = Z.of_nat (length pre + length seg) - 1 ->
    exists seg',
      sorting.quicksort_hoare fuel l (Some lo) (Some hi)
      = sorting.Done (pre ++ seg' ++ post) /\
      Permutation seg seg' /\ Sorted Z.le seg'.
Proof.
  induction fuel as [|fuel IH]; intros seg pre post l lo hi Hfuel Hl Hlo Hhi;
    [lia|].
  cbn [sorting.quicksort_hoare].
  destruct (Nat.le_gt_cases (length seg) 1) as [Hshort | Hlong].
  - replace (lo <? hi) with false by (symmetry; apply Z.ltb_ge; lia).
    exists seg. subst l. split; [reflexivity|]. split; [reflexivity|].
    now apply short_list_sorted.
  - replace (lo <? hi) with true by (symmetry; apply Z.ltb_lt; lia).
    destruct (partition_hoare_spec fuel pre seg post)
      as [A [B [Hpart [HA [HB [Hperm [HleA HgeB]]]]]]]; try lia.
    set (p := nth 0 seg 0) in *.
    subst l lo hi. rewrite Hpart. cbn [sorting.obind].
    pose proof (Permutation_length Hperm) as Hlen.
    rewrite length_app in Hlen.
    assert (HlenA : (1 <= length A)%nat)
      by (destruct A; [congruence|simpl; lia]).
    assert (HlenB : (1 <= length B)%nat)
      by (destruct B; [congruence|simpl; lia]).
    set (lo := Z.of_nat (length pre)).
    set (hi := Z.of_nat (length pre + length seg) - 1).
    set (MIDDLE := Z.of_nat (length pre + length A) - 1).
    assert (Hc1 : (lo <? MIDDLE) = (2 <=? length A)%nat).
    { subst lo MIDDLE.
      destruct (Nat.leb_spec 2 (length A));
        [apply Z.ltb_lt|apply Z.ltb_ge]; lia. }
    assert (Hc2 : (MIDDLE + 1 <? hi) = (2 <=? length B)%nat).
    { subst hi MIDDLE.
      destruct (Nat.leb_spec 2 (length B));
        [apply Z.ltb_lt|apply Z.ltb_ge]; lia. }
    assert (Hc3 : (hi <=? MIDDLE + 1) = negb (2 <=? length B)%nat).
    { subst hi MIDDLE.
      destruct (Nat.leb_spec 2 (length B)); cbn [negb];
        [apply Z.leb_gt|apply Z.leb_le]; lia. }
    assert (Hc4 : (MIDDLE <=? lo) = negb (2 <=? length A)%nat).
    { subst lo MIDDLE.
      destruct (Nat.leb_spec 2 (length A)); cbn [negb];
        [apply Z.leb_gt|apply Z.leb_le]; lia. }
    rewrite Hc1, Hc2, Hc3, Hc4. clear Hc1 Hc2 Hc3 Hc4.
    assert (Hleft : exists A',
              sorting.quicksort_hoare fuel (pre ++ A ++ B ++ post)
                (Some lo) (Some MIDDLE)
              = sorting.Done (pre ++ A' ++ B ++ post) /\
              Permutation A A' /\ Sorted Z.le A').
    { apply (IH A pre (B ++ post)); auto. lia. }
    assert (Hright : forall A',
              length A' = length A ->
              exists B',
                sorting.quicksort_hoare fuel (pre ++ A' ++ B ++ post)
                  (Some (MIDDLE + 1)) (Some hi)
                = sorting.Done (pre ++ A' ++ B' ++ post) /\
                Permutation B B' /\ Sorted Z.le B').
    { intros A' HA'.
      destruct (IH B (pre ++ A') post (pre ++ A' ++ B ++ post)
                  (MIDDLE + 1) hi) as [B' [Hrun HB']].
      - lia.
      - list_norm.
      - subst MIDDLE. len_norm.
      - subst hi. len_norm.
      - exists B'. split; [|exact HB']. rewrite Hrun. list_norm. }
    destruct (Nat.leb_spec 2 (length A)) as [Ha2 | Ha1];
      destruct (Nat.leb_spec 2 (length B)) as [Hb2 | Hb1];
      cbn [andb negb].
    + destruct Hleft as [A' [Hrunl [HpA HsA]]].
      rewrite Hrunl. cbn [sorting.obind].
      destruct (Hright A') as [B' [Hrunr [HpB HsB]]];
        [symmetry; now apply Permutation_length|].
      rewrite Hrunr. exists (A' ++ B'). split; [list_norm|].
      now apply (assemble_two_parts seg A B A' B' p).
    + destruct Hleft as [A' [Hrunl [HpA HsA]]].
      rewrite Hrunl. exists (A' ++ B). split; [list_norm|].
      apply (assemble_two_parts seg A B A' B p); auto.
      apply short_list_sorted. lia.
    + destruct (Hright A) as [B' [Hrunr [HpB HsB]]]; [reflexivity|].
      rewrite Hrunr. exists (A ++ B'). split; [list_norm|].
      apply (assemble_two_parts seg A B A B' p); auto.
      apply short_list_sorted. lia.
    + exists (A ++ B). split; [list_norm|].
      apply (assemble_two_parts seg A B A B p); auto;
        apply short_list_sorted; lia.
Qed.

(** X17.  [quicksort_hoare(elements)], with more fuel than the list is
    long, returns the list sorted, a permutation of the input in
    nondecreasing order; the empty list is returned as it is. *)
Theorem quicksort_hoare_sorts (fuel : nat) (elements : list Z) :
  (length elements < fuel)%nat ->
  exists sorted,
    sorting.quicksort_hoare fuel elements None None = sorting.Done sorted /\
    Permutation elements sorted /\ Sorted Z.le sorted /\
    (elements = [] -> sorted = []).
Proof.
  intros Hfuel.
  destruct (quicksort_hoare_segment fuel elements [] [] elements 0
              (Z.of_nat (length elements) - 1))
    as [sorted [Hrun [Hperm Hsorted]]]; auto.
  - now rewrite app_nil_r.
  - exists sorted. rewrite app_nil_r in Hrun. cbn [app] in Hrun.
    split; [|split; [exact Hperm|split; [exact Hsorted|]]].
    + rewrite <- Hrun. destruct fuel; reflexivity.
    + intros ->. now apply Permutation_nil.
Qed.

Lemma quicksort_hoare_sorts_witness :
  (length [3; 1; 2] < 4)%nat /\
  exists sorted,
    sorting.quicksort_hoare 4 [3; 1; 2] None None = sorting.Done sorted /\
    Permutation [3; 1; 2] sorted /\ Sorted Z.le sorted /\
    ([3; 1; 2] = [] -> sorted = []).
Proof.
  split; [simpl; lia|].
  apply (quicksort_hoare_sorts 4 [3; 1; 2]). simpl. lia.
Defined.

(** X18.  Called on the range [[low_idx, high_idx]] holding the segment
    [seg] of [pre ++ seg ++ post], [quicksort_hoare] sorts the segment and
    leaves the values before and after it untouched. *)
Theorem quicksort_hoare_sorts_only_the_range
  (fuel : nat) (pre seg post : list Z) :
  (length seg < fuel)%nat ->
  exists seg',
    sorting.quicksort_hoare fuel (pre ++ seg ++ post)
      (Some (Z.of_nat (length pre)))
      (Some (Z.of_nat (length pre + length seg) - 1))
    = sorting.Done (pre ++ seg' ++ post) /\
    Permutation seg seg' /\ Sorted Z.le seg'.
Proof.
  intros Hfuel. now apply (quicksort_hoare_segment fuel seg pre post).
Qed.

Lemma quicksort_hoare_sorts_only_the_range_witness :
  (length [5; 4] < 3)%nat /\
  exists seg',
    sorting.quicksort_hoare 3 ([9; 8] ++ [5; 4] ++ [1])
      (Some (Z.of_nat (length [9; 8])))
      (Some (Z.of_nat (length [9; 8] + length [5; 4]) - 1))
    = sorting.Done ([9; 8] ++ seg' ++ [1]) /\
    Permutation [5; 4] seg' /\ Sorted Z.le seg'.
Proof.
  split; [simpl; lia|].
  apply (quicksort_hoare_sorts_only_the_range 3 [9; 8] [5; 4] [1]).
  simpl. lia.
Defined.

(** X19.  [partition_hoare] on a range of at least two values, with fuel
    for its length: the range is rearranged into a first part of values at
    most the pivot (the value that was first in the range) and a second
    part of values at least the pivot, neither part empty; the index
    returned is the last of the first part, so it is at least [low_idx] and
    less than [high_idx]; the rest of the list is untouched. *)
Theorem partition_hoare_splits (fuel : nat) (pre seg post : list Z) :
  (2 <= length seg)%nat -> (length seg <= fuel)%nat ->
  exists A B,
    sorting.partition_hoare fuel (pre ++ seg ++ post)
      (Some (Z.of_nat (length pre)))
      (Some (Z.of_nat (length pre + length seg) - 1))
    = sorting.Done (pre ++ A ++ B ++ post,
                    Some (Z.of_nat (length pre + length A) - 1)) /\
    A <> [] /\ B <> [] /\
    Permutation seg (A ++ B) /\
    Forall (fun x => x <= nth 0 seg 0) A /\
    Forall (fun x => nth 0 seg 0 <= x) B.
Proof. apply partition_hoare_spec. Qed.

Lemma partition_hoare_splits_witness :
  (2 <= length [3; 1; 2])%nat /\
  exists A B,
    sorting.partition_hoare 3 ([] ++ [3; 1; 2] ++ [])
      (Some (Z.of_nat (length (@nil Z))))
      (Some (Z.of_nat (length (@nil Z) + length [3; 1; 2]) - 1))
    = sorting.Done ([] ++ A ++ B ++ [],
                    Some (Z.of_nat (length (@nil Z) + length A) - 1)) /\
    A <> [] /\ B <> [] /\
    Permutation [3; 1; 2] (A ++ B) /\
    Forall (fun x => x <= nth 0 [3; 1; 2] 0) A /\
    Forall (fun x => nth 0 [3; 1; 2] 0 <= x) B.
Proof.
  split; [simpl; lia|].
  apply (partition_hoare_splits 3 [] [3; 1; 2] []); simpl; lia.
Defined.

(** X20.  [quicksort_hoare] on a range with [low_idx >= high_idx] returns
    the list as it is without reading any element, so indices outside the
    list are not noticed. *)
Theorem quicksort_hoare_empty_range (fuel : nat) (elements : list Z)
  (low_idx high_idx : Z) :
  high_idx <= low_idx ->
  sorting.quicksort_hoare (S fuel) elements (Some low_idx) (Some high_idx)
  = sorting.Done elements.
Proof.
  intros H. cbn [sorting.quicksort_hoare].
  now replace (low_idx <? high_idx) with false
    by (symmetry; apply Z.ltb_ge; lia).
Qed.

Lemma quicksort_hoare_empty_range_witness :
  7 <= 9 /\
  sorting.quicksort_hoare 1 [2; 1] (Some 9) (Some 7) = sorting.Done [2; 1].
Proof.
  split; [lia|].
  apply (quicksort_hoare_empty_range 0 [2; 1] 9 7). lia.
Defined.

(** X21.  [partition_hoare] returns no index when [high_idx = low_idx - 2]
    and [low_idx] is a valid position: the loop condition fails at once and
    the function falls off its end, the list untouched. *)
Theorem partition_hoare_returns_None (fuel : nat) (elements : list Z)
  (low_idx : Z) :
  0 <= low_idx < Z.of_nat (length elements) ->
  sorting.partition_hoare (S fuel) elements (Some low_idx) (Some (low_idx - 2))
  = sorting.Done (elements, None).
Proof.
  intros H. unfold sorting.partition_hoare.
  unfold sorting.getitem. rewrite norm_index_in by lia.
  cbn [sorting.obind sorting.hoare_while].
  now replace (low_idx - 1 =? low_idx - 2 + 1) with true
    by (symmetry; apply Z.eqb_eq; lia).
Qed.

Lemma partition_hoare_returns_None_witness :
  0 <= 2 < Z.of_nat (length [1; 2; 3]) /\
  sorting.partition_hoare 1 [1; 2; 3] (Some 2) (Some (2 - 2))
  = sorting.Done ([1; 2; 3], None).
Proof.
  split; [simpl; lia|].
  apply (partition_hoare_returns_None 0 [1; 2; 3] 2). simpl. lia.
Defined.

(** X22.  [quicksort_lomuto] on an inverted range, [high_idx < low_idx]
    with both positions in the list, does not leave the list alone: the
    loop is skipped and line 36 exchanges the values at [high_idx] and
    [low_idx]. *)
Theorem quicksort_lomuto_inverted_range_swaps
  (fuel : nat) (elements : list Z) (a b : nat) :
  (a < b)%nat -> (b < length elements)%nat ->
  sorting.quicksort_lomuto (S fuel) elements
    (Some (Z.of_nat b)) (Some (Z.of_nat a))
  = sorting.Done (exchanged elements a b).
Proof.
  intros Hab Hb. cbn [sorting.quicksort_lomuto].
  rewrite (sorting_getitem_at _ _ a) by (auto; lia).
  cbn [sorting.obind].
  rewrite range_nil by lia. cbn [sorting.lomuto_loop sorting.obind].
  pose proof (swap_in_segment [] elements [] a b
                (Z.of_nat a) (Z.of_nat b)) as Hswap.
  cbn [app length Nat.add] in Hswap. rewrite !app_nil_r in Hswap.
  rewrite Hswap by (auto; lia). cbn [sorting.obind].
  replace (Z.of_nat b <? Z.of_nat b - 1) with false
    by (symmetry; apply Z.ltb_ge; lia).
  replace (Z.of_nat b + 1 <? Z.of_nat a) with false
    by (symmetry; apply Z.ltb_ge; lia).
  cbn [andb]. now rewrite andb_false_r.
Qed.

Lemma quicksort_lomuto_inverted_range_swaps_witness :
  (0 < 1)%nat /\
  sorting.quicksort_lomuto 1 [1; 2] (Some (Z.of_nat 1)) (Some (Z.of_nat 0))
  = sorting.Done [2; 1].
Proof.
  split; [lia|].
  apply (quicksort_lomuto_inverted_range_swaps 0 [1; 2] 0 1); simpl; lia.
Defined.
